(** * tinkerbell-ipxedust, package [binary]: the embedded iPXE images and
    the marker patch.

    The Go package keeps seven embedded byte slices in the map [Files] and
    exports one function, [Patch], which overwrites the first occurrence of
    [magicString] in a copy of its argument.  Byte slices are modelled as
    views (backing array, offset, length) into a store of arrays, so that
    aliasing between the argument and the result of [Patch] is visible;
    every access to an array is bounds checked and a failed check is the
    run-time panic of Go. *)

From Stdlib Require Import ZArith.
From Stdlib.Strings Require Import Byte.
From stdpp Require Import gmap strings list fin_maps.

Local Open Scope Z_scope.
Local Open Scope nat_scope.

(** ** Byte slices and the store of backing arrays *)

#[global] Instance byte_eq_dec : EqDecision byte := Byte.byte_eq_dec.

Definition loc := positive.

Abbreviation heap := (gmap loc (list byte)).

(** A [[]byte] value.  [nil_slice] is Go's [nil]; [Slice l o n] views the
    [n] bytes that start at offset [o] of the array stored at [l].  The
    capacity is left out: [Patch] never appends and never reslices past the
    length. *)
Inductive slice : Type :=
  | nil_slice
  | Slice (arr : loc) (off n : nat).

Arguments Slice arr%_positive off%_nat n%_nat.

Definition len (s : slice) : nat :=
  match s with
  | nil_slice => 0
  | Slice _ _ n => n
  end.

(** The view denoted by a slice in a store. *)
Definition bytes (s : slice) (h : heap) : list byte :=
  match s with
  | nil_slice => []
  | Slice l o n => take n (drop o (default [] (h !! l)))
  end.

(** A slice is well formed in a store when its window lies inside an
    allocated array; the Go runtime maintains this for every slice value. *)
Definition slice_ok (h : heap) (s : slice) : Prop :=
  match s with
  | nil_slice => True
  | Slice l o n => ∃ a, h !! l = Some a ∧ o + n ≤ length a
  end.

(** ** Computations: store passing with panic *)

Definition M (A : Type) : Type := heap → option (A * heap).

Definition ret {A} (x : A) : M A := λ h, Some (x, h).

Definition panic {A} : M A := λ _, None.

Definition bind {A B} (m : M A) (k : A → M B) : M B :=
  λ h, match m h with
       | Some (x, h') => k x h'
       | None => None
       end.

#[global] Instance M_ret : MRet M := @ret.
#[global] Instance M_bind : MBind M := λ A B k m, bind m k.

(** Checked access to the array behind a slice. *)
Definition load (s : slice) : M (list byte) :=
  λ h, match s with
       | nil_slice => Some ([], h)
       | Slice l o n =>
           match h !! l with
           | Some a =>
               if decide (o + n ≤ length a)
               then Some (take n (drop o a), h) else None
           | None => None
           end
       end.

Definition store (l : loc) (o : nat) (bs : list byte) : M unit :=
  λ h, match h !! l with
       | Some a =>
           if decide (o + length bs ≤ length a)
           then Some ((), <[l := list_inserts o bs a]> h) else None
       | None => None
       end.

(** [make([]byte, n)]: a fresh zeroed array. *)
Definition make (n : nat) : M slice :=
  λ h, let l := fresh (dom h) in
       Some (Slice l 0 n, <[l := replicate n "000"%byte]> h).

(** [copy(dst, src)] for a source whose bytes are known: it moves
    [min (len dst) (len src)] bytes and returns that count. *)
Definition copy_bytes (dst : slice) (src : list byte) : M nat :=
  let bs := take (len dst) src in
  match dst with
  | nil_slice => ret 0
  | Slice l o _ => _ ← store l o bs; ret (length bs)
  end.

(** [copy(dst, src)] between two slices; the source is read first, which
    gives the overlap-safe behaviour of the builtin. *)
Definition copy (dst src : slice) : M nat :=
  bs ← load src; copy_bytes dst bs.

(** [s[i:]]: panics unless [0 <= i <= len(s)]. *)
Definition slice_from (s : slice) (i : Z) : M slice :=
  if decide (0 ≤ i ≤ Z.of_nat (len s))%Z then
    ret (match s with
         | nil_slice => nil_slice
         | Slice l o n => Slice l (o + Z.to_nat i) (n - Z.to_nat i)
         end)
  else panic.

(** [s[k] = b]: panics unless [k < len(s)]. *)
Definition set_index (s : slice) (k : nat) (b : byte) : M unit :=
  match s with
  | nil_slice => panic
  | Slice l o n => if decide (k < n) then store l (o + k) [b] else panic
  end.

(** ** Package [bytes] of the Go library *)

(** [bytes.Index(s, sep)]: the index of the first instance of [sep] in
    [s], or [-1]. *)
Fixpoint Index_from (k : nat) (s sep : list byte) : Z :=
  if decide (sep `prefix_of` s) then Z.of_nat k
  else match s with
       | [] => (-1)%Z
       | _ :: s' => Index_from (S k) s' sep
       end.

Definition Index (s sep : list byte) : Z := Index_from 0 s sep.

(** The search run on a slice of the store; the separator is one of the
    package's constants. *)
Definition bytes_Index (s : slice) (sep : list byte) : M Z :=
  bs ← load s; ret (Index bs sep).

(** [bytes.Repeat(b, count)]. *)
Definition Repeat (b : list byte) (count : nat) : list byte :=
  concat (replicate count b).

(** ** Package [binary] *)

(** [magicString]: the two lines of the raw string literal, which holds
    one line feed between them.  The variable is private to the package
    and never assigned to, and so is [magicStringPadding]; both are
    constants here. *)
Definition magicString : list byte :=
  String.list_byte_of_string
    "#a8b7e61f1075c37a793f2f92cee89f7bba00c4a8d7842ce3d40b5889032d8881"
  ++ "010"%byte
  :: String.list_byte_of_string
    "#ddd16a4fc4926ecefdfb6941e33c44ed3647133638f5e84021ea44d3152e7f97".

Definition magicStringPadding : list byte :=
  Repeat [" "%byte] (length magicString).

(** The digits of the two lines of the marker: [0-9] and [a-f]. *)
Definition is_hex_digit (b : byte) : bool :=
  let n := Byte.to_N b in
  ((48 <=? n) && (n <=? 57) || (97 <=? n) && (n <=? 102))%N.

Inductive error : Type := ErrPatchTooLong.

Definition Patch (content patch : slice) : M (slice * option error) :=
  if decide (len patch = 0) then ret (content, None)
  else
    i ← bytes_Index content magicString;
    if decide (i = (-1)%Z) then ret (content, None)
    else if decide (length magicString < len patch)
    then ret (nil_slice, Some ErrPatchTooLong)
    else
      dup ← make (len content);
      _ ← copy dup content;
      d ← slice_from dup i;
      _ ← copy_bytes d magicStringPadding;
      d ← slice_from dup i;
      _ ← copy d patch;
      ret (dup, None).

(** ** Occurrences of a separator *)

(** [sep] stands in [s] at offset [i]. *)
Definition occurs_at (sep s : list byte) (i : nat) : Prop :=
  ∃ pre post, s = pre ++ sep ++ post ∧ length pre = i.

(** [i] is the offset of the leftmost occurrence. *)
Definition first_occurrence (sep s : list byte) (i : nat) : Prop :=
  occurs_at sep s i ∧ ∀ j, j < i → ¬ occurs_at sep s j.

Definition contains (sep s : list byte) : Prop := ∃ i, occurs_at sep s i.

(** ** Windows, and shifts of the marker *)

(** [s[lo:hi]] of Go. *)
Definition sub (s : list byte) (lo hi : nat) : list byte :=
  take (hi - lo) (drop lo s).

(** A shift [d] is a border of [m] when [m] moved right by [d] agrees with
    [m] where the two overlap. *)
Definition border (m : list byte) (d : nat) : bool :=
  bool_decide (drop d m = take (length m - d) m).

Definition border_free (m : list byte) : bool :=
  forallb (λ d, negb (border m d)) (seq 1 (length m - 1)).

(** The store after the successful path of [Patch]: the fresh array holds
    the content with the marker window replaced by the payload and spaces. *)
Definition patched (c p : list byte) (i : nat) : list byte :=
  take i c ++ p
  ++ replicate (length magicString - length p) " "%byte
  ++ drop (i + length magicString) c.

(** The layout the specification gives to a patched buffer [R], for a
    content [C] with the marker at offset [i] and a payload [P]. *)
Definition patch_layout (C P R : list byte) (i : nat) : Prop :=
  length R = length C
  ∧ sub R 0 i = sub C 0 i
  ∧ sub R i (i + length P) = P
  ∧ sub R (i + length P) (i + length magicString)
    = replicate (length magicString - length P) " "%byte
  ∧ drop (i + length magicString) R = drop (i + length magicString) C.

(** ** Callers *)

(** A caller writing through a slice it holds: [s[k] = b] for each pair
    in turn. *)
Fixpoint set_indices (s : slice) (ws : list (nat * byte)) : M unit :=
  match ws with
  | [] => ret ()
  | (k, b) :: ws' => _ ← set_index s k b; set_indices s ws'
  end.

(** ** The registry *)

(** The seven files named by the [go:embed] directives are not among the
    sources; their bytes are a parameter of the model. *)
Record embedded : Type := Embedded {
  ipxe_efi : list byte;
  undionly_kpxe : list byte;
  snp_efi : list byte;
  ipxe_iso : list byte;
  rock_5b_dtb : list byte;
  orangepi_3b_dtb : list byte;
  odroid_hc4_dtb : list byte
}.


Section Registry.
Variable E : embedded.

Definition IpxeEFI : slice := Slice 1 0 (length (ipxe_efi E)).
Definition Undionly : slice := Slice 2 0 (length (undionly_kpxe E)).
Definition SNP : slice := Slice 3 0 (length (snp_efi E)).
Definition IpxeISO : slice := Slice 4 0 (length (ipxe_iso E)).
Definition DTBRock5b : slice := Slice 5 0 (length (rock_5b_dtb E)).
Definition DTBOrangePi3b : slice := Slice 6 0 (length (orangepi_3b_dtb E)).
Definition DTBOdroidHC4 : slice := Slice 7 0 (length (odroid_hc4_dtb E)).

(** The store when the package has been initialised: one array per
    embedded file. *)
Definition init_heap : heap :=
  list_to_map
    [(1%positive, ipxe_efi E); (2%positive, undionly_kpxe E);
     (3%positive, snp_efi E); (4%positive, ipxe_iso E);
     (5%positive, rock_5b_dtb E); (6%positive, orangepi_3b_dtb E);
     (7%positive, odroid_hc4_dtb E)].

Definition Files : gmap string slice :=
  list_to_map
    [("undionly.kpxe", Undionly);
     ("ipxe.efi", IpxeEFI);
     ("snp.efi", SNP);
     ("ipxe.iso", IpxeISO);
     ("rk3588-rock-5b.dtb", DTBRock5b);
     ("rk3566-orangepi-3b.dtb", DTBOrangePi3b);
     ("meson-sm1-odroid-hc4.dtb", DTBOdroidHC4)].

(** [Files[name]] read in a store: the bytes of the asset, if there is one. *)
Definition Files_content (h : heap) (name : string) : option (list byte) :=
  (λ s, bytes s h) <$> Files !! name.

(** The stores the package can be in: the initial one, and the one after
    any call of [Patch] on slices of the current store. *)
Inductive reachable : heap → Prop :=
  | reach_init : reachable init_heap
  | reach_Patch h content patch r h' :
      reachable h → slice_ok h content → slice_ok h patch →
      Patch content patch h = Some (r, h') → reachable h'.

(** A slice that views none of the arrays of the embedded files. *)
Definition off_registry (s : slice) : Prop :=
  match s with
  | nil_slice => True
  | Slice l _ _ => init_heap !! l = None
  end.

(** The stores of a program that uses the package and never writes into
    the array of an embedded file: besides calling [Patch], a caller may
    allocate buffers and write through any slice off the registry, the
    copies [Patch] returned among them. *)
Inductive unwritten : heap → Prop :=
  | unwritten_init : unwritten init_heap
  | unwritten_Patch h content patch r h' :
      unwritten h → slice_ok h content → slice_ok h patch →
      Patch content patch h = Some (r, h') → unwritten h'
  | unwritten_make h n s h' :
      unwritten h → make n h = Some (s, h') → unwritten h'
  | unwritten_set_index h s k b h' :
      unwritten h → off_registry s →
      set_index s k b h = Some ((), h') → unwritten h'.

End Registry.

(** ** Sample inputs *)

Definition hello : list byte := String.list_byte_of_string "hello".

(** 200 bytes with the marker at offset 50. *)
Definition sample_content : list byte :=
  replicate 50 "x"%byte ++ magicString ++ replicate 19 "y"%byte.

(** The marker at offsets 3 and 136. *)
Definition twice_marked : list byte :=
  replicate 3 "x"%byte ++ magicString ++ replicate 2 "-"%byte ++ magicString.

Definition sample_heap : heap :=
  list_to_map
    [(1%positive, sample_content); (2%positive, hello);
     (3%positive, replicate 65 "p"%byte); (4%positive, replicate 132 "q"%byte);
     (5%positive, twice_marked)].

Definition sample_embedded : embedded :=
  {| ipxe_efi := sample_content;
     undionly_kpxe := hello;
     snp_efi := twice_marked;
     ipxe_iso := replicate 4 "i"%byte;
     rock_5b_dtb := replicate 3 "r"%byte;
     orangepi_3b_dtb := replicate 2 "o"%byte;
     odroid_hc4_dtb := replicate 1 "m"%byte |}.

(** The store after one request for [ipxe.efi] patched with a payload. *)
Definition sample_state : heap :=
  <[8%positive := patched sample_content hello 50]> (init_heap sample_embedded).


(** * Properties *)

Example magicString_length : length magicString = 131.
Proof. reflexivity. Qed.

Lemma occurs_at_0 sep s : occurs_at sep s 0 ↔ sep `prefix_of` s.
Proof.
  split.
  - intros (pre & post & -> & Hpre). destruct pre; [|done]. by exists post.
  - intros [post ->]. by exists [], post.
Qed.

Lemma occurs_at_S sep x s i : occurs_at sep (x :: s) (S i) ↔ occurs_at sep s i.
Proof.
  split.
  - intros (pre & post & Hs & Hpre). destruct pre as [|y pre]; [done|].
    simplify_eq/=. by exists pre, post.
  - intros (pre & post & -> & <-). by exists (x :: pre), post.
Qed.

Lemma occurs_at_nil sep i : occurs_at sep [] i → i = 0.
Proof. intros (pre & post & Hs & <-). by destruct pre. Qed.

Lemma occurs_at_bound sep s i : occurs_at sep s i → i + length sep ≤ length s.
Proof. intros (pre & post & -> & <-). rewrite !length_app. lia. Qed.

Lemma occurs_at_window sep s i :
  occurs_at sep s i ↔ i + length sep ≤ length s ∧ take (length sep) (drop i s) = sep.
Proof.
  split.
  - intros H. split; [by eapply occurs_at_bound|].
    destruct H as (pre & post & -> & <-).
    by rewrite drop_app_length, take_app_length.
  - intros [Hle Hw]. exists (take i s), (drop (i + length sep) s). split.
    + rewrite <- (take_drop i s) at 1. f_equal.
      rewrite <- (take_drop (length sep) (drop i s)) at 1.
      by rewrite Hw, drop_drop.
    + rewrite length_take. lia.
Qed.

Lemma first_occurrence_unique sep s i j :
  first_occurrence sep s i → first_occurrence sep s j → i = j.
Proof.
  intros [Hi Hmi] [Hj Hmj].
  destruct (Nat.lt_trichotomy i j) as [?|[?|?]]; [|done|].
  - by destruct (Hmj i).
  - by destruct (Hmi j).
Qed.

(** [Index_from] returns the leftmost occurrence, shifted by its counter,
    or [-1] when there is none. *)
Lemma Index_from_spec sep s k :
  (Index_from k s sep = (-1)%Z ∧ ∀ i, ¬ occurs_at sep s i)
  ∨ ∃ i, Index_from k s sep = Z.of_nat (k + i) ∧ first_occurrence sep s i.
Proof.
  revert k. induction s as [|x s IH]; intros k; simpl.
  - case_decide as Hp.
    + right. exists 0. rewrite Nat.add_0_r. split; [done|]. split.
      * by apply occurs_at_0.
      * intros j Hj. lia.
    + left. split; [done|]. intros i Hi.
      pose proof (occurs_at_nil _ _ Hi) as ->. by apply occurs_at_0 in Hi.
  - case_decide as Hp.
    + right. exists 0. rewrite Nat.add_0_r. split; [done|]. split.
      * by apply occurs_at_0.
      * intros j Hj. lia.
    + destruct (IH (S k)) as [[Heq Hno]|(i & Heq & Hocc & Hmin)].
      * left. split; [done|]. intros [|i] Hi.
        -- by apply occurs_at_0 in Hi.
        -- apply occurs_at_S in Hi. by eapply Hno.
      * right. exists (S i). split; [rewrite Heq; f_equal; lia|]. split.
        -- by apply occurs_at_S.
        -- intros [|j] Hj Hoj.
           ++ by apply occurs_at_0 in Hoj.
           ++ apply occurs_at_S in Hoj. apply (Hmin j); [lia|done].
Qed.

Lemma Index_spec sep s :
  (Index s sep = (-1)%Z ∧ ¬ contains sep s)
  ∨ ∃ i, Index s sep = Z.of_nat i ∧ first_occurrence sep s i.
Proof.
  destruct (Index_from_spec sep s 0) as [[? Hno]|(i & ? & ?)].
  - left. split; [done|]. intros [i Hi]. by eapply Hno.
  - right. by exists i.
Qed.

Lemma Index_first sep s i : first_occurrence sep s i → Index s sep = Z.of_nat i.
Proof.
  intros Hi. destruct (Index_spec sep s) as [[_ Hno]|(j & Hj & Hfj)].
  - destruct Hno. exists i. apply Hi.
  - by rewrite (first_occurrence_unique _ _ _ _ Hi Hfj).
Qed.

Lemma Index_absent sep s : ¬ contains sep s → Index s sep = (-1)%Z.
Proof.
  intros Hno. destruct (Index_spec sep s) as [[? _]|(j & _ & Hj & _)]; [done|].
  destruct Hno. by exists j.
Qed.

Lemma Index_found sep s i :
  Index s sep = Z.of_nat i → first_occurrence sep s i.
Proof.
  intros Hi. destruct (Index_spec sep s) as [[Hm _]|(j & Hj & Hfj)]; [lia|].
  by replace i with j by lia.
Qed.

Lemma Index_contains sep s : Index s sep ≠ (-1)%Z ↔ contains sep s.
Proof.
  split.
  - intros Hne. destruct (Index_spec sep s) as [[? _]|(j & _ & Hj & _)]; [done|].
    by exists j.
  - intros Hc Heq. destruct (Index_spec sep s) as [[_ Hno]|(j & Hj & _)]; [done|lia].
Qed.

(** ** Facts about the store operations *)

Lemma bind_run {A B} (m : M A) (k : A → M B) h x h' :
  m h = Some (x, h') → (m ≫= k) h = k x h'.
Proof. intros Hm. unfold mbind, M_bind, bind. by rewrite Hm. Qed.

Lemma Repeat_single b n : Repeat [b] n = replicate n b.
Proof. unfold Repeat. induction n; simpl; [done|]. by f_equal. Qed.

Lemma magicStringPadding_spaces :
  magicStringPadding = replicate (length magicString) " "%byte.
Proof. apply Repeat_single. Qed.

Lemma list_inserts_window {A} (l k : list A) i :
  i + length k ≤ length l →
  list_inserts i k l = take i l ++ k ++ drop (i + length k) l.
Proof.
  intros Hle.
  rewrite <- (take_drop i l) at 1.
  rewrite <- (take_drop (length k) (drop i l)) at 1.
  assert (length (take i l) + 0 = i) as Hi by (rewrite length_take; lia).
  rewrite <- Hi at 1.
  rewrite list_inserts_app_r, list_inserts_0_r, drop_drop; [done|].
  rewrite length_take, length_drop. lia.
Qed.

Lemma fresh_unallocated (h : heap) : h !! fresh (dom h) = None.
Proof. apply not_elem_of_dom, is_fresh. Qed.

Lemma length_bytes h s : slice_ok h s → length (bytes s h) = len s.
Proof.
  destruct s as [|l o n]; simpl; [done|]. intros (a & -> & Hle). simpl.
  rewrite length_take, length_drop. lia.
Qed.

Lemma load_ok h s : slice_ok h s → load s h = Some (bytes s h, h).
Proof.
  destruct s as [|l o n]; simpl; [done|]. intros (a & -> & Hle). simpl.
  by rewrite decide_True.
Qed.

(** Allocating or overwriting another array changes neither the view nor
    the well-formedness of a slice. *)
Lemma bytes_insert_ne (h : heap) l a s :
  (∀ o n, s ≠ Slice l o n) → bytes s (<[l:=a]> h) = bytes s h.
Proof.
  destruct s as [|l' o n]; simpl; [done|]. intros Hne.
  rewrite lookup_insert_ne; [done|]. intros ->. by eapply Hne.
Qed.

Lemma slice_ok_insert_ne (h : heap) l a s :
  (∀ o n, s ≠ Slice l o n) → slice_ok h s → slice_ok (<[l:=a]> h) s.
Proof.
  destruct s as [|l' o n]; simpl; [done|]. intros Hne (a' & Hl & Hle).
  exists a'. split; [|done]. rewrite lookup_insert_ne; [done|].
  intros ->. by eapply Hne.
Qed.

Lemma slice_ok_not_fresh (h : heap) s o n :
  slice_ok h s → s ≠ Slice (fresh (dom h)) o n.
Proof.
  intros Hok ->. destruct Hok as (a & Hl & _).
  by rewrite fresh_unallocated in Hl.
Qed.

Lemma store_ok (h : heap) l o bs a :
  h !! l = Some a → o + length bs ≤ length a →
  store l o bs h = Some ((), <[l := take o a ++ bs ++ drop (o + length bs) a]> h).
Proof.
  intros Hl Hle. unfold store. rewrite Hl, decide_True by done.
  by rewrite list_inserts_window.
Qed.

Lemma copy_bytes_fits (h : heap) l o n src a :
  h !! l = Some a → length src ≤ n → o + length src ≤ length a →
  copy_bytes (Slice l o n) src h =
    Some (length src, <[l := take o a ++ src ++ drop (o + length src) a]> h).
Proof.
  intros Hl Hn Hle. unfold copy_bytes. simpl len. rewrite take_ge by done.
  erewrite bind_run by by apply store_ok. done.
Qed.

Lemma copy_ok (h : heap) dst src :
  slice_ok h src → copy dst src h = copy_bytes dst (bytes src h) h.
Proof. intros Hs. unfold copy. by erewrite bind_run by by apply load_ok. Qed.

Lemma slice_from_ok (h : heap) l o n (i : nat) :
  i ≤ n → slice_from (Slice l o n) (Z.of_nat i) h = Some (Slice l (o + i) (n - i), h).
Proof.
  intros Hi. unfold slice_from. rewrite decide_True by (simpl; lia).
  by rewrite Nat2Z.id.
Qed.

Lemma bytes_Index_ok h s sep :
  slice_ok h s → bytes_Index s sep h = Some (Index (bytes s h) sep, h).
Proof. intros Hs. unfold bytes_Index. by erewrite bind_run by by apply load_ok. Qed.

Lemma Patch_empty content patch h :
  len patch = 0 → Patch content patch h = Some ((content, None), h).
Proof. intros Hp. unfold Patch. by rewrite decide_True. Qed.

Lemma Patch_absent content patch h :
  slice_ok h content → len patch ≠ 0 →
  ¬ contains magicString (bytes content h) →
  Patch content patch h = Some ((content, None), h).
Proof.
  intros Hok Hp Hno. unfold Patch. rewrite decide_False by done.
  erewrite bind_run by by apply bytes_Index_ok.
  by rewrite Index_absent, decide_True.
Qed.

Lemma Patch_too_long content patch h :
  slice_ok h content → contains magicString (bytes content h) →
  length magicString < len patch →
  Patch content patch h = Some ((nil_slice, Some ErrPatchTooLong), h).
Proof.
  intros Hok Hc Hp. unfold Patch. rewrite decide_False by lia.
  erewrite bind_run by by apply bytes_Index_ok.
  apply Index_contains in Hc.
  by rewrite decide_False, decide_True.
Qed.

Lemma Patch_success content patch h i :
  slice_ok h content → slice_ok h patch →
  first_occurrence magicString (bytes content h) i →
  0 < len patch ≤ length magicString →
  Patch content patch h =
    Some ((Slice (fresh (dom h)) 0 (len content), None),
          <[fresh (dom h) := patched (bytes content h) (bytes patch h) i]> h).
Proof.
  intros Hc Hp Hi [Hp0 Hp1].
  pose proof (length_bytes _ _ Hc) as Hlc.
  pose proof (length_bytes _ _ Hp) as Hlp.
  pose proof (occurs_at_bound _ _ _ (proj1 Hi)) as Hb.
  assert (length magicStringPadding = length magicString) as Hpad
    by (by rewrite magicStringPadding_spaces, length_replicate).
  assert (∀ a s, slice_ok h s → slice_ok (<[fresh (dom h):=a]> h) s) as Hok'.
  { intros a s Hs. apply slice_ok_insert_ne; [|done].
    intros o m. by apply slice_ok_not_fresh. }
  assert (∀ a s, slice_ok h s → bytes s (<[fresh (dom h):=a]> h) = bytes s h) as Hb'.
  { intros a s Hs. apply bytes_insert_ne. intros o m. by apply slice_ok_not_fresh. }
  unfold Patch. rewrite decide_False by lia.
  erewrite bind_run by by apply bytes_Index_ok.
  rewrite (Index_first _ _ _ Hi).
  rewrite decide_False by lia. rewrite decide_False by lia.
  erewrite bind_run by reflexivity.
  set (l := fresh (dom h)) in *. set (c := bytes content h) in *.
  set (p := bytes patch h) in *. set (n := len content) in *.
  (* copy(dup, content) *)
  erewrite bind_run; cycle 1.
  { rewrite copy_ok, Hb' by auto. apply copy_bytes_fits.
    - apply lookup_insert_eq.
    - fold c. lia.
    - rewrite length_replicate. fold c. lia. }
  fold c. rewrite insert_insert_eq, take_0, drop_ge by (rewrite length_replicate; lia).
  simpl. rewrite app_nil_r.
  (* copy(dup[i:], magicStringPadding) *)
  erewrite bind_run by (apply slice_from_ok; lia).
  erewrite bind_run; cycle 1.
  { apply copy_bytes_fits; [apply lookup_insert_eq|lia|lia]. }
  rewrite insert_insert_eq.
  (* copy(dup[i:], patch) *)
  erewrite bind_run by (apply slice_from_ok; lia).
  erewrite bind_run; cycle 1.
  { rewrite copy_ok, Hb' by auto. fold p. apply copy_bytes_fits.
    - apply lookup_insert_eq.
    - lia.
    - rewrite !length_app, length_take, length_drop. lia. }
  rewrite insert_insert_eq.
  unfold ret. do 3 f_equal. rewrite !Nat.add_0_l.
  rewrite Hpad, magicStringPadding_spaces.
  unfold patched. fold c p.
  rewrite take_app_le, take_take by (rewrite length_take; lia).
  rewrite Nat.min_id. f_equal. f_equal.
  rewrite drop_app_ge by (rewrite length_take; lia).
  rewrite length_take, Nat.min_l by lia.
  replace (i + length p - i) with (length p) by lia.
  rewrite drop_app_le by (rewrite length_replicate; lia).
  by rewrite drop_replicate.
Qed.

(** Every call of [Patch] on well-formed slices takes one of four paths. *)
Lemma Patch_cases content patch h :
  slice_ok h content → slice_ok h patch →
  (len patch = 0 ∧ Patch content patch h = Some ((content, None), h))
  ∨ (len patch ≠ 0 ∧ ¬ contains magicString (bytes content h)
     ∧ Patch content patch h = Some ((content, None), h))
  ∨ (contains magicString (bytes content h) ∧ length magicString < len patch
     ∧ Patch content patch h = Some ((nil_slice, Some ErrPatchTooLong), h))
  ∨ (∃ i, first_occurrence magicString (bytes content h) i
     ∧ 0 < len patch ≤ length magicString
     ∧ Patch content patch h =
         Some ((Slice (fresh (dom h)) 0 (len content), None),
               <[fresh (dom h) := patched (bytes content h) (bytes patch h) i]> h)).
Proof.
  intros Hc Hp. destruct (decide (len patch = 0)) as [H0|H0].
  { left. split; [done|]. by apply Patch_empty. }
  right. destruct (Index_spec magicString (bytes content h))
    as [[_ Hno]|(i & _ & Hi)].
  { left. split; [done|]. split; [done|]. by apply Patch_absent. }
  right. destruct (decide (length magicString < len patch)) as [Hlong|Hfit].
  - left. split; [by exists i; apply Hi|]. split; [done|].
    apply Patch_too_long; [done| |done]. exists i. apply Hi.
  - right. exists i. split; [done|]. split; [lia|].
    apply Patch_success; [done|done|done|lia].
Qed.

(** [Patch] only ever adds an array to the store. *)
Lemma Patch_extends content patch h r h' :
  slice_ok h content → slice_ok h patch →
  Patch content patch h = Some (r, h') → h ⊆ h'.
Proof.
  intros Hc Hp Hrun.
  destruct (Patch_cases content patch h Hc Hp)
    as [[_ E]|[(_ & _ & E)|[(_ & _ & E)|(i & _ & _ & E)]]];
    rewrite E in Hrun; simplify_eq; [done..|].
  apply insert_subseteq, fresh_unallocated.
Qed.

Lemma bytes_weaken (h h' : heap) s :
  h ⊆ h' → slice_ok h s → bytes s h' = bytes s h.
Proof.
  destruct s as [|l o n]; simpl; [done|]. intros Hsub (a & Hl & _).
  by rewrite Hl, (lookup_weaken _ _ _ _ Hl Hsub).
Qed.

Lemma slice_ok_weaken (h h' : heap) s :
  h ⊆ h' → slice_ok h s → slice_ok h' s.
Proof.
  destruct s as [|l o n]; simpl; [done|]. intros Hsub (a & Hl & Hle).
  exists a. split; [|done]. by eapply lookup_weaken.
Qed.

(** ** The marker does not overlap itself *)

Lemma magicString_border_free : border_free magicString = true.
Proof. vm_compute. reflexivity. Qed.

Lemma overlap_border m s i d :
  occurs_at m s i → occurs_at m s (i + d) → d < length m → border m d = true.
Proof.
  intros [Hbi Hi]%occurs_at_window [Hbj Hj]%occurs_at_window Hd.
  apply bool_decide_eq_true.
  rewrite <- Hi at 1. rewrite <- Hj at 3.
  rewrite take_take, Nat.min_l by lia.
  rewrite <- drop_drop.
  rewrite (take_drop_commute (drop i s)).
  by replace (d + (length m - d)) with (length m) by lia.
Qed.

Lemma border_free_apart m s i j :
  border_free m = true → occurs_at m s i → occurs_at m s j → i < j →
  i + length m ≤ j.
Proof.
  intros Hfree Hi Hj Hlt.
  destruct (decide (i + length m ≤ j)) as [|Hn]; [done|]. exfalso.
  replace j with (i + (j - i)) in Hj by lia.
  pose proof (overlap_border m s i (j - i) Hi Hj ltac:(lia)) as Hb.
  unfold border_free in Hfree. rewrite forallb_forall in Hfree.
  specialize (Hfree (j - i)). rewrite Hb in Hfree.
  assert (In (j - i) (seq 1 (length m - 1))) as Hin by (apply in_seq; lia).
  by specialize (Hfree Hin).
Qed.

Lemma magicString_apart s i j :
  occurs_at magicString s i → occurs_at magicString s j → i < j →
  i + length magicString ≤ j.
Proof. apply border_free_apart, magicString_border_free. Qed.

(** ** The bytes of a patched array *)

Section patched_facts.
Context (c p : list byte) (i : nat).
Hypothesis Hocc : i + length magicString ≤ length c.
Hypothesis Hfit : length p ≤ length magicString.

Lemma length_patched : length (patched c p i) = length c.
Proof.
  unfold patched.
  rewrite !length_app, length_take, length_replicate, length_drop. lia.
Qed.

Lemma patched_before : take i (patched c p i) = take i c.
Proof.
  unfold patched. rewrite take_app_le by (rewrite length_take; lia).
  rewrite take_take. f_equal. lia.
Qed.

Lemma patched_from : drop i (patched c p i) =
  p ++ replicate (length magicString - length p) " "%byte
    ++ drop (i + length magicString) c.
Proof.
  unfold patched. rewrite drop_app_length'; [done|]. rewrite length_take. lia.
Qed.

Lemma patched_payload : sub (patched c p i) i (i + length p) = p.
Proof.
  unfold sub. rewrite patched_from.
  replace (i + length p - i) with (length p) by lia.
  by rewrite take_app_length.
Qed.

Lemma patched_padding :
  sub (patched c p i) (i + length p) (i + length magicString)
  = replicate (length magicString - length p) " "%byte.
Proof.
  unfold sub. rewrite <- drop_drop, patched_from, drop_app_length.
  replace (i + length magicString - (i + length p))
    with (length magicString - length p) by lia.
  apply take_app_length'. by rewrite length_replicate.
Qed.

Lemma patched_after :
  drop (i + length magicString) (patched c p i) = drop (i + length magicString) c.
Proof.
  rewrite <- (drop_drop (patched c p i)), patched_from.
  rewrite drop_app_ge by done.
  apply drop_app_length'. by rewrite length_replicate.
Qed.

Lemma patched_outside k :
  k < i ∨ i + length magicString ≤ k → patched c p i !! k = c !! k.
Proof.
  intros [Hk|Hk].
  - rewrite <- (lookup_take_lt (patched c p i) i k) by done.
    rewrite patched_before. by apply lookup_take_lt.
  - replace k with (i + length magicString + (k - (i + length magicString))) by lia.
    by rewrite <- !lookup_drop, patched_after.
Qed.
End patched_facts.

Lemma Index_none sep s : Index s sep = (-1)%Z → ¬ contains sep s.
Proof. intros Heq Hc. by apply Index_contains in Hc. Qed.

Lemma Index_some sep s i : Index s sep = Z.of_nat i → contains sep s.
Proof. intros Heq. exists i. by apply Index_found. Qed.

(** Discharges [slice_ok] for a slice of a store given in full. *)
Ltac slice_ok_here :=
  first [ exact I | eexists; split; [reflexivity | vm_compute; lia] ].

(** The successful path seen from the caller: a slice over a fresh array
    that holds the patched bytes. *)
Lemma Patch_success_view content patch h i :
  slice_ok h content → slice_ok h patch →
  first_occurrence magicString (bytes content h) i →
  0 < len patch ≤ length magicString →
  ∃ l, h !! l = None
    ∧ Patch content patch h =
        Some ((Slice l 0 (len content), None),
              <[l := patched (bytes content h) (bytes patch h) i]> h)
    ∧ bytes (Slice l 0 (len content))
        (<[l := patched (bytes content h) (bytes patch h) i]> h)
      = patched (bytes content h) (bytes patch h) i.
Proof.
  intros Hc Hp Hi Hlen. exists (fresh (dom h)).
  split; [apply fresh_unallocated|]. split; [by apply Patch_success|].
  simpl. rewrite lookup_insert_eq. simpl. apply take_ge.
  rewrite length_patched.
  - by rewrite length_bytes.
  - apply occurs_at_bound, Hi.
  - rewrite length_bytes by done. lia.
Qed.

Lemma sub_0 s i : sub s 0 i = take i s.
Proof. unfold sub. simpl. by rewrite Nat.sub_0_r. Qed.

Lemma patched_layout c p i :
  i + length magicString ≤ length c → length p ≤ length magicString →
  patch_layout c p (patched c p i) i.
Proof.
  intros Hocc Hfit. unfold patch_layout. rewrite !sub_0.
  split; [by apply length_patched|].
  split; [by apply patched_before|].
  split; [by apply patched_payload|].
  split; [by apply patched_padding|by apply patched_after].
Qed.

(** An occurrence of the marker that starts inside the first
    marker-length of a buffer is the leftmost one. *)
Lemma magicString_early_first s i :
  occurs_at magicString s i → i < length magicString →
  first_occurrence magicString s i.
Proof.
  intros Hi Hlt. split; [done|]. intros j Hj Hoj.
  pose proof (magicString_apart s j i Hoj Hi Hj). lia.
Qed.

(** An occurrence of the marker other than the patched one lies wholly
    behind it, and so survives in the patched bytes. *)
Lemma patched_keeps_later c p i j :
  first_occurrence magicString c i → length p ≤ length magicString →
  occurs_at magicString c j → j ≠ i →
  i + length magicString ≤ j ∧ occurs_at magicString (patched c p i) j.
Proof.
  intros [Hi Hmin] Hfit Hj Hne.
  assert (i < j) as Hlt.
  { destruct (decide (j < i)) as [Hji|]; [|lia]. by destruct (Hmin j). }
  pose proof (magicString_apart c i j Hi Hj Hlt) as Hapart.
  pose proof (occurs_at_bound _ _ _ Hi) as Hbi.
  split; [done|].
  apply occurs_at_window in Hj as [Hbj Hwj]. apply occurs_at_window.
  split; [by rewrite length_patched|].
  etrans; [|exact Hwj]. f_equal.
  replace j with (i + length magicString + (j - (i + length magicString))) by lia.
  by rewrite <- !(drop_drop _ _ (i + length magicString)), patched_after.
Qed.

Lemma patched_window c p i :
  i + length magicString ≤ length c → length p ≤ length magicString →
  sub (patched c p i) i (i + length magicString)
  = p ++ replicate (length magicString - length p) " "%byte.
Proof.
  intros Hocc Hfit. unfold sub. rewrite patched_from by done.
  rewrite app_assoc. apply take_app_length'.
  rewrite length_app, length_replicate. lia.
Qed.

(** ** Writes through a slice that owns its array *)

Lemma set_index_ok (h : heap) l o n k b a :
  h !! l = Some a → o + n ≤ length a → k < n →
  set_index (Slice l o n) k b h = Some ((), <[l := <[o + k := b]> a]> h).
Proof.
  intros Hl Hle Hk. unfold set_index. rewrite decide_True by done.
  unfold store. rewrite Hl, decide_True by (simpl; lia). done.
Qed.

(** In-range writes through a slice succeed and touch its array only. *)
Lemma set_indices_ok (h : heap) l o n ws a :
  h !! l = Some a → o + n ≤ length a → Forall (λ w, w.1 < n) ws →
  ∃ a', set_indices (Slice l o n) ws h = Some ((), <[l := a']> h)
        ∧ length a' = length a.
Proof.
  intros Hl Hle Hws. revert h a Hl Hle.
  induction Hws as [|[k b] ws Hk _ IH]; intros h a Hl Hle.
  - exists a. split; [|done]. simpl. unfold ret. by rewrite insert_id.
  - simpl in Hk. simpl set_indices.
    erewrite bind_run by by apply set_index_ok.
    destruct (IH (<[l := <[o + k := b]> a]> h) (<[o + k := b]> a))
      as (a' & Hrun & Hlen).
    { apply lookup_insert_eq. }
    { by rewrite length_insert. }
    exists a'. rewrite Hrun, insert_insert_eq.
    split; [done|]. by rewrite Hlen, length_insert.
Qed.

(** ** The registry is never written *)

Lemma reachable_extends E h : reachable E h → init_heap E ⊆ h.
Proof.
  induction 1 as [|h content patch r h' _ IH Hc Hp Hrun]; [done|].
  etrans; [exact IH|]. exact (Patch_extends _ _ _ _ _ Hc Hp Hrun).
Qed.

Lemma embedded_bytes E h l data :
  reachable E h → init_heap E !! l = Some data →
  bytes (Slice l 0 (length data)) h = data.
Proof.
  intros Hr Hl. rewrite (bytes_weaken (init_heap E)).
  - simpl. rewrite Hl. simpl. by apply take_ge.
  - by apply reachable_extends.
  - exists data. split; [done|]. simpl. lia.
Qed.

(** The shape of the marker: two lines, each a [#] and 64 hexadecimal
    digits, and one line feed, between them. *)
Lemma magicString_lines :
  ∃ d1 d2, magicString = ("#"%byte :: d1) ++ ["010"%byte] ++ "#"%byte :: d2
    ∧ length d1 = 64 ∧ length d2 = 64
    ∧ forallb is_hex_digit d1 = true ∧ forallb is_hex_digit d2 = true
    ∧ ∀ k, magicString !! k = Some "010"%byte ↔ k = 65.
Proof.
  exists (take 64 (drop 1 magicString)), (drop 67 magicString).
  split; [vm_compute; reflexivity|].
  split; [reflexivity|]. split; [reflexivity|].
  split; [vm_compute; reflexivity|]. split; [vm_compute; reflexivity|].
  intros k. split; [|intros ->; reflexivity].
  intros Hk.
  assert (k < 131) as Hlt by (apply lookup_lt_Some in Hk; exact Hk).
  assert (forallb (λ j, bool_decide (magicString !! j = Some "010"%byte → j = 65))
            (seq 0 131) = true) as Hall by (vm_compute; reflexivity).
  rewrite forallb_forall in Hall.
  assert (In k (seq 0 131)) as Hin by (apply in_seq; lia).
  specialize (Hall k Hin). apply bool_decide_eq_true_1 in Hall. by apply Hall.
Qed.


Lemma reachable_unwritten E h : reachable E h → unwritten E h.
Proof.
  induction 1 as [|h content patch r h' _ IH Hc Hp Hrun].
  - apply unwritten_init.
  - exact (unwritten_Patch E h content patch r h' IH Hc Hp Hrun).
Qed.



(** * The claims *)

(** C1, as amended: for every content with the marker at first offset [i]
    and every non-empty payload no longer than the marker, [Patch] returns
    without error a buffer [R] as long as the content, with [R[0:i]] the
    content's, [R[i:i+len(P)]] the payload, [R[i+len(P):i+len(marker)]] all
    spaces and [R[i+len(marker):]] the content's. *)
Theorem Patch_overwrites_first_marker content patch h i :
  slice_ok h content → slice_ok h patch →
  first_occurrence magicString (bytes content h) i →
  0 < len patch ≤ length magicString →
  ∃ r h', Patch content patch h = Some ((r, None), h')
    ∧ len r = len content
    ∧ patch_layout (bytes content h) (bytes patch h) (bytes r h') i.
Proof.
  intros Hc Hp Hi Hlen.
  destruct (Patch_success_view content patch h i) as (l & _ & Hrun & Hview);
    [done..|].
  eexists _, _. split; [exact Hrun|]. split; [done|].
  rewrite Hview. apply patched_layout.
  - apply occurs_at_bound, Hi.
  - rewrite length_bytes by done. lia.
Qed.

Lemma Patch_overwrites_first_marker_witness :
  ∃ r h', Patch (Slice 1 0 200) (Slice 2 0 5) sample_heap = Some ((r, None), h')
    ∧ len r = 200
    ∧ patch_layout (bytes (Slice 1 0 200) sample_heap)
        (bytes (Slice 2 0 5) sample_heap) (bytes r h') 50.
Proof.
  apply (Patch_overwrites_first_marker (Slice 1 0 200) (Slice 2 0 5)).
  - slice_ok_here.
  - slice_ok_here.
  - apply Index_found. vm_compute. reflexivity.
  - vm_compute. lia.
Defined.

(** C1 as stated fails for the empty payload, which is within the length
    bound: the content comes back as it is, and the marker window holds
    the marker, not spaces. *)
Lemma Patch_empty_payload_keeps_marker :
  slice_ok sample_heap (Slice 1 0 200)
  ∧ first_occurrence magicString (bytes (Slice 1 0 200) sample_heap) 50
  ∧ len nil_slice ≤ length magicString
  ∧ Patch (Slice 1 0 200) nil_slice sample_heap
    = Some ((Slice 1 0 200, None), sample_heap)
  ∧ ¬ patch_layout (bytes (Slice 1 0 200) sample_heap)
        (bytes nil_slice sample_heap) (bytes (Slice 1 0 200) sample_heap) 50.
Proof.
  split; [slice_ok_here|].
  split; [apply Index_found; vm_compute; reflexivity|].
  split; [simpl; lia|].
  split; [by apply Patch_empty|].
  intros (_ & _ & _ & Hpad & _). vm_compute in Hpad. discriminate Hpad.
Qed.

(** C2: for every content with the marker and every payload longer than
    the marker, [Patch] returns the nil slice and [ErrPatchTooLong], and
    the store is the one it was given: nothing allocated, nothing written. *)
Theorem Patch_payload_too_long content patch h :
  slice_ok h content →
  contains magicString (bytes content h) →
  length magicString < len patch →
  Patch content patch h = Some ((nil_slice, Some ErrPatchTooLong), h).
Proof. apply Patch_too_long. Qed.

Lemma Patch_payload_too_long_witness :
  Patch (Slice 1 0 200) (Slice 4 0 132) sample_heap
  = Some ((nil_slice, Some ErrPatchTooLong), sample_heap).
Proof.
  apply Patch_payload_too_long.
  - slice_ok_here.
  - apply (Index_some _ _ 50). vm_compute. reflexivity.
  - vm_compute. lia.
Defined.

(** C3: for every content, [Patch] with an empty payload returns without
    error the very slice it was given, in the store it was given: the
    result reads the same bytes as the content and nothing was allocated. *)
Theorem Patch_empty_payload_noop content patch h :
  len patch = 0 →
  Patch content patch h = Some ((content, None), h).
Proof. apply Patch_empty. Qed.

Lemma Patch_empty_payload_noop_witness :
  Patch (Slice 1 0 200) nil_slice sample_heap
  = Some ((Slice 1 0 200, None), sample_heap).
Proof. apply Patch_empty_payload_noop. reflexivity. Defined.

(** C4: for every content without the marker and every non-empty payload
    no longer than the marker, [Patch] returns without error the slice it
    was given, in an unchanged store. *)
Theorem Patch_marker_absent_noop content patch h :
  slice_ok h content →
  ¬ contains magicString (bytes content h) →
  0 < len patch ≤ length magicString →
  Patch content patch h = Some ((content, None), h).
Proof. intros Hc Hno [Hp _]. apply Patch_absent; [done|lia|done]. Qed.

Lemma Patch_marker_absent_noop_witness :
  Patch (Slice 2 0 5) (Slice 3 0 65) sample_heap
  = Some ((Slice 2 0 5, None), sample_heap).
Proof.
  apply Patch_marker_absent_noop.
  - slice_ok_here.
  - apply Index_none. vm_compute. reflexivity.
  - vm_compute. lia.
Defined.

(** C5: [Patch] never writes to an array that exists when it is called,
    so the content reads the same afterwards.  When the content holds the
    marker and the payload is non-empty and fits, the result is a slice
    over an array that did not exist before the call, and whatever the
    caller then writes through the result, the content still reads the
    same and no array of the original store has changed. *)
Theorem Patch_copy_isolation content patch h :
  slice_ok h content → slice_ok h patch →
  ∃ r e h', Patch content patch h = Some ((r, e), h')
    ∧ (∀ l a, h !! l = Some a → h' !! l = Some a)
    ∧ bytes content h' = bytes content h
    ∧ (contains magicString (bytes content h) →
       0 < len patch ≤ length magicString →
       e = None
       ∧ (∃ l, r = Slice l 0 (len content) ∧ h !! l = None)
       ∧ ∀ ws, Forall (λ w, w.1 < len r) ws →
           ∃ h'', set_indices r ws h' = Some ((), h'')
             ∧ (∀ l a, h !! l = Some a → h'' !! l = Some a)
             ∧ bytes content h'' = bytes content h).
Proof.
  intros Hc Hp.
  destruct (Patch_cases content patch h Hc Hp)
    as [[H0 E]|[(H0 & Hno & E)|[(Hyes & Hlong & E)|(i & Hi & Hlen & E)]]].
  - eexists _, _, _. split; [exact E|]. split; [done|]. split; [done|].
    intros _ ?. lia.
  - eexists _, _, _. split; [exact E|]. split; [done|]. split; [done|].
    by intros ? _.
  - eexists _, _, _. split; [exact E|]. split; [done|]. split; [done|].
    intros _ ?. lia.
  - pose proof (fresh_unallocated h) as Hfresh.
    set (l := fresh (dom h)) in *.
    set (a := patched (bytes content h) (bytes patch h) i) in *.
    assert (∀ a', h ⊆ <[l := a']> h) as Hsub
      by (intros a'; by apply insert_subseteq).
    eexists _, _, _. split; [exact E|].
    split; [intros l' a' Hl'; by eapply lookup_weaken|].
    split; [by apply bytes_weaken|].
    intros _ _. split; [done|]. split; [by exists l|].
    intros ws Hws.
    destruct (set_indices_ok (<[l := a]> h) l 0 (len content) ws a)
      as (a' & Hrun & _).
    + apply lookup_insert_eq.
    + unfold a. rewrite length_patched.
      * rewrite length_bytes by done. lia.
      * apply occurs_at_bound, Hi.
      * rewrite length_bytes by done. lia.
    + done.
    + rewrite insert_insert_eq in Hrun. exists (<[l := a']> h).
      split; [exact Hrun|].
      split; [intros l' a'' Hl'; by eapply lookup_weaken|].
      by apply bytes_weaken.
Qed.

Lemma Patch_copy_isolation_witness :
  ∃ r h', Patch (Slice 1 0 200) (Slice 2 0 5) sample_heap = Some ((r, None), h')
    ∧ bytes (Slice 1 0 200) h' = sample_content
    ∧ (∃ l, r = Slice l 0 200 ∧ sample_heap !! l = None)
    ∧ ∃ h'', set_indices r [(50, "H"%byte); (199, "!"%byte)] h' = Some ((), h'')
        ∧ bytes (Slice 1 0 200) h'' = sample_content.
Proof.
  destruct (Patch_copy_isolation (Slice 1 0 200) (Slice 2 0 5) sample_heap)
    as (r & e & h' & Hrun & _ & Hsame & Hiso); [slice_ok_here|slice_ok_here|].
  destruct Hiso as (-> & (l & -> & Hl) & Hws).
  { apply (Index_some _ _ 50). vm_compute. reflexivity. }
  { vm_compute. lia. }
  exists (Slice l 0 200), h'. split; [exact Hrun|]. split; [exact Hsame|].
  split; [by exists l|].
  destruct (Hws [(50, "H"%byte); (199, "!"%byte)]) as (h'' & Hrun' & _ & Hsame').
  { repeat constructor; simpl; lia. }
  by exists h''.
Defined.

(** C6, as amended: on well-formed slices [Patch] always returns, and its
    error is [ErrPatchTooLong] exactly when the content holds the marker
    and the payload is longer than the marker; in every other case the
    error is nil.  There is no other failure. *)
Theorem Patch_error_exactly_too_long content patch h :
  slice_ok h content → slice_ok h patch →
  ∃ r e h', Patch content patch h = Some ((r, e), h')
    ∧ (e = Some ErrPatchTooLong ↔
         contains magicString (bytes content h)
         ∧ length magicString < len patch)
    ∧ (e = None ↔
         ¬ (contains magicString (bytes content h)
            ∧ length magicString < len patch)).
Proof.
  intros Hc Hp.
  destruct (Patch_cases content patch h Hc Hp)
    as [[H0 E]|[(H0 & Hno & E)|[(Hyes & Hlong & E)|(i & Hi & Hlen & E)]]];
    eexists _, _, _; (split; [exact E|]).
  - split; [split; [done|intros [_ ?]; lia]|split; [intros _ [_ ?]; lia|done]].
  - split; [split; [done|by intros [? _]]|split; [by intros _ [? _]|done]].
  - split; [done|]. split; [done|]. intros Hn. by destruct Hn.
  - split; [split; [done|intros [_ ?]; lia]|split; [intros _ [_ ?]; lia|done]].
Qed.

Lemma Patch_error_exactly_too_long_witness :
  ∃ r e h', Patch (Slice 1 0 200) (Slice 4 0 132) sample_heap = Some ((r, e), h')
    ∧ (e = Some ErrPatchTooLong ↔
         contains magicString (bytes (Slice 1 0 200) sample_heap)
         ∧ length magicString < len (Slice 4 0 132))
    ∧ (e = None ↔
         ¬ (contains magicString (bytes (Slice 1 0 200) sample_heap)
            ∧ length magicString < len (Slice 4 0 132))).
Proof.
  apply Patch_error_exactly_too_long.
  - slice_ok_here.
  - slice_ok_here.
Defined.

(** C6 as stated fails on a content without the marker: a payload of 132
    bytes is longer than the marker, and [Patch] returns the content with
    a nil error. *)
Lemma Patch_long_payload_without_marker :
  slice_ok sample_heap (Slice 2 0 5) ∧ slice_ok sample_heap (Slice 4 0 132)
  ∧ length magicString < len (Slice 4 0 132)
  ∧ Patch (Slice 2 0 5) (Slice 4 0 132) sample_heap
    = Some ((Slice 2 0 5, None), sample_heap)
  ∧ ¬ ∃ r h', Patch (Slice 2 0 5) (Slice 4 0 132) sample_heap
              = Some ((r, Some ErrPatchTooLong), h').
Proof.
  assert (Patch (Slice 2 0 5) (Slice 4 0 132) sample_heap
          = Some ((Slice 2 0 5, None), sample_heap)) as E.
  { apply Patch_absent; [slice_ok_here|simpl; lia|].
    apply Index_none. vm_compute. reflexivity. }
  split; [slice_ok_here|]. split; [slice_ok_here|].
  split; [vm_compute; lia|]. split; [exact E|].
  intros (r & h' & E'). rewrite E in E'. discriminate E'.
Qed.

(** C7, as amended: the marker is 131 bytes, two lines of 65, each a [#]
    and 64 hexadecimal digits, joined by a line feed, the only one in it.
    For a content of 200 bytes with the marker at offset 50, a
    payload of 132 bytes (one more than the marker) gets [ErrPatchTooLong]
    and the nil slice; the payload [hello] gives 200 bytes with [50:55]
    equal to [hello], [55:181] all spaces and every other byte the
    content's. *)
Theorem Patch_scenario_200_at_50 content long patch h :
  slice_ok h content → slice_ok h patch →
  len content = 200 →
  occurs_at magicString (bytes content h) 50 →
  len long = 132 →
  bytes patch h = hello →
  (length magicString = 131
   ∧ ∃ d1 d2, magicString = ("#"%byte :: d1) ++ ["010"%byte] ++ "#"%byte :: d2
       ∧ length d1 = 64 ∧ length d2 = 64
       ∧ forallb is_hex_digit d1 = true ∧ forallb is_hex_digit d2 = true
       ∧ ∀ k, magicString !! k = Some "010"%byte ↔ k = 65)
  ∧ Patch content long h = Some ((nil_slice, Some ErrPatchTooLong), h)
  ∧ ∃ r h', Patch content patch h = Some ((r, None), h')
      ∧ length (bytes r h') = 200
      ∧ sub (bytes r h') 50 55 = hello
      ∧ sub (bytes r h') 55 181 = replicate 126 " "%byte
      ∧ ∀ k, k < 50 ∨ 181 ≤ k → bytes r h' !! k = bytes content h !! k.
Proof.
  intros Hc Hp Hlen Hocc H132 Hhello.
  assert (length magicString = 131) as HM by reflexivity.
  pose proof (length_bytes _ _ Hc) as Hlc.
  split; [split; [done|]|split].
  - apply magicString_lines.
  - apply Patch_too_long; [done|by exists 50|lia].
  - assert (len patch = 5) as Hlp by (by rewrite <- (length_bytes h), Hhello).
    assert (first_occurrence magicString (bytes content h) 50) as Hfirst
      by (apply magicString_early_first; [done|lia]).
    destruct (Patch_success_view content patch h 50 Hc Hp Hfirst ltac:(lia))
      as (l & _ & Hrun & Hview).
    eexists _, _. split; [exact Hrun|]. rewrite Hview, Hhello.
    assert (length hello ≤ length magicString) as Hfit by (rewrite HM; simpl; lia).
    assert (50 + length magicString ≤ length (bytes content h)) as Hb by lia.
    split; [by rewrite length_patched; [lia|..]|].
    split; [by apply (patched_payload _ hello 50)|].
    split; [by apply (patched_padding _ hello 50)|].
    intros k Hk. apply patched_outside; [done..|lia].
Qed.

Lemma Patch_scenario_200_at_50_witness :
  (length magicString = 131
   ∧ ∃ d1 d2, magicString = ("#"%byte :: d1) ++ ["010"%byte] ++ "#"%byte :: d2
       ∧ length d1 = 64 ∧ length d2 = 64
       ∧ forallb is_hex_digit d1 = true ∧ forallb is_hex_digit d2 = true
       ∧ ∀ k, magicString !! k = Some "010"%byte ↔ k = 65)
  ∧ Patch (Slice 1 0 200) (Slice 4 0 132) sample_heap
    = Some ((nil_slice, Some ErrPatchTooLong), sample_heap)
  ∧ ∃ r h', Patch (Slice 1 0 200) (Slice 2 0 5) sample_heap = Some ((r, None), h')
      ∧ length (bytes r h') = 200
      ∧ sub (bytes r h') 50 55 = hello
      ∧ sub (bytes r h') 55 181 = replicate 126 " "%byte
      ∧ ∀ k, k < 50 ∨ 181 ≤ k →
          bytes r h' !! k = bytes (Slice 1 0 200) sample_heap !! k.
Proof.
  apply Patch_scenario_200_at_50.
  - slice_ok_here.
  - slice_ok_here.
  - reflexivity.
  - apply Index_found. vm_compute. reflexivity.
  - reflexivity.
  - reflexivity.
Defined.

(** C7 as stated fails: the marker is not 64 bytes long, so a payload of
    65 bytes fits and is patched in without error; and with [hello] the
    byte at offset 114 of the result is a space, not the content's. *)
Lemma Patch_accepts_65_bytes :
  length magicString ≠ 64
  ∧ len (Slice 1 0 200) = 200
  ∧ occurs_at magicString (bytes (Slice 1 0 200) sample_heap) 50
  ∧ len (Slice 3 0 65) = 65
  ∧ (∃ r h', Patch (Slice 1 0 200) (Slice 3 0 65) sample_heap
             = Some ((r, None), h'))
  ∧ (∃ r h', Patch (Slice 1 0 200) (Slice 2 0 5) sample_heap
             = Some ((r, None), h')
       ∧ bytes r h' !! 114 ≠ bytes (Slice 1 0 200) sample_heap !! 114).
Proof.
  assert (first_occurrence magicString (bytes (Slice 1 0 200) sample_heap) 50)
    as Hfirst by (apply Index_found; vm_compute; reflexivity).
  split; [vm_compute; discriminate|]. split; [reflexivity|].
  split; [apply Hfirst|]. split; [reflexivity|]. split.
  - destruct (Patch_success_view (Slice 1 0 200) (Slice 3 0 65) sample_heap 50)
      as (l & _ & Hrun & _); [slice_ok_here|slice_ok_here|done|vm_compute; lia|].
    eexists _, _. exact Hrun.
  - destruct (Patch_success_view (Slice 1 0 200) (Slice 2 0 5) sample_heap 50)
      as (l & _ & Hrun & Hview); [slice_ok_here|slice_ok_here|done|vm_compute; lia|].
    eexists _, _. split; [exact Hrun|]. rewrite Hview.
    vm_compute. discriminate.
Qed.

(** C8: when the marker stands in the content at its first offset [i] and
    again at another offset [j], a non-empty payload that fits rewrites
    the window at [i] only: that window becomes the payload and spaces,
    every byte outside it is the content's, and the occurrence at [j] lies
    behind the window and is an occurrence of the marker in the result. *)
Theorem Patch_later_markers_unpatched content patch h i j :
  slice_ok h content → slice_ok h patch →
  first_occurrence magicString (bytes content h) i →
  occurs_at magicString (bytes content h) j → j ≠ i →
  0 < len patch ≤ length magicString →
  ∃ r h', Patch content patch h = Some ((r, None), h')
    ∧ sub (bytes r h') i (i + length magicString)
      = bytes patch h ++ replicate (length magicString - len patch) " "%byte
    ∧ (∀ k, k < i ∨ i + length magicString ≤ k →
         bytes r h' !! k = bytes content h !! k)
    ∧ i + length magicString ≤ j
    ∧ occurs_at magicString (bytes r h') j.
Proof.
  intros Hc Hp Hi Hj Hne Hlen.
  destruct (Patch_success_view content patch h i Hc Hp Hi Hlen)
    as (l & _ & Hrun & Hview).
  pose proof (occurs_at_bound _ _ _ (proj1 Hi)) as Hb.
  pose proof (length_bytes _ _ Hp) as Hlp.
  eexists _, _. split; [exact Hrun|]. rewrite Hview.
  split; [|split].
  - rewrite <- Hlp. apply patched_window; [done|lia].
  - intros k Hk. apply patched_outside; [done|lia|done].
  - apply patched_keeps_later; [done|lia|done|done].
Qed.

Lemma Patch_later_markers_unpatched_witness :
  ∃ r h', Patch (Slice 5 0 267) (Slice 2 0 5) sample_heap = Some ((r, None), h')
    ∧ sub (bytes r h') 3 (3 + length magicString)
      = bytes (Slice 2 0 5) sample_heap
        ++ replicate (length magicString - len (Slice 2 0 5)) " "%byte
    ∧ (∀ k, k < 3 ∨ 3 + length magicString ≤ k →
         bytes r h' !! k = bytes (Slice 5 0 267) sample_heap !! k)
    ∧ 3 + length magicString ≤ 136
    ∧ occurs_at magicString (bytes r h') 136.
Proof.
  apply Patch_later_markers_unpatched.
  - slice_ok_here.
  - slice_ok_here.
  - apply Index_found. vm_compute. reflexivity.
  - apply occurs_at_window. split; [vm_compute; lia|vm_compute; reflexivity].
  - lia.
  - vm_compute. lia.
Defined.




(** [sample_state] is reached from the initial store by one call of [Patch]. *)
Lemma sample_state_reachable : reachable sample_embedded sample_state.
Proof.
  apply (reach_Patch sample_embedded (init_heap sample_embedded)
           (IpxeEFI sample_embedded) (Undionly sample_embedded)
           (Slice 8 0 200, None)).
  - apply reach_init.
  - slice_ok_here.
  - slice_ok_here.
  - vm_compute. reflexivity.
Defined.

(** C10: on well-formed slices [Patch] returns; no slice expression and no
    array access of it is out of range.  When the search gives an index
    [i] other than [-1], then [0 <= i] and [i + len(marker) <= len(content)],
    so [dup[i:]] is a legal slice of the duplicate with room for the whole
    padding, and a payload that fits the marker fits under the padding. *)
Theorem Patch_total_in_bounds content patch h :
  slice_ok h content → slice_ok h patch →
  (∃ r h', Patch content patch h = Some (r, h'))
  ∧ ∀ i, Index (bytes content h) magicString = i → i ≠ (-1)%Z →
      (0 ≤ i)%Z
      ∧ (i + Z.of_nat (length magicString) ≤ Z.of_nat (len content))%Z
      ∧ (∀ dup h1, make (len content) h = Some (dup, h1) →
           len dup = len content
           ∧ ∃ d, slice_from dup i h1 = Some (d, h1)
               ∧ Z.to_nat i + len d = len dup
               ∧ length magicStringPadding ≤ len d
               ∧ (len patch ≤ length magicString →
                  len patch ≤ length magicStringPadding)).
Proof.
  intros Hc Hp. split.
  - destruct (Patch_cases content patch h Hc Hp)
      as [[_ E]|[(_ & _ & E)|[(_ & _ & E)|(i & _ & _ & E)]]];
      eexists _, _; exact E.
  - intros i Hi Hne.
    destruct (Index_spec magicString (bytes content h))
      as [[Hm _]|(k & Hk & Hocc & _)]; [congruence|].
    apply occurs_at_bound in Hocc. rewrite length_bytes in Hocc by done.
    assert (i = Z.of_nat k) as -> by congruence.
    split; [lia|]. split; [lia|].
    intros dup h1 Hmake. unfold make in Hmake. simplify_eq. simpl len.
    split; [done|]. rewrite slice_from_ok by lia.
    eexists. split; [reflexivity|]. simpl len.
    rewrite magicStringPadding_spaces, length_replicate, Nat2Z.id.
    split; [lia|]. split; [lia|done].
Qed.

Lemma Patch_total_in_bounds_witness :
  (∃ r h', Patch (Slice 1 0 200) (Slice 2 0 5) sample_heap = Some (r, h'))
  ∧ Index sample_content magicString = 50%Z
  ∧ (50 + Z.of_nat (length magicString) ≤ 200)%Z
  ∧ ∀ dup h1, make 200 sample_heap = Some (dup, h1) →
      len dup = 200
      ∧ ∃ d, slice_from dup 50%Z h1 = Some (d, h1)
          ∧ 50 + len d = len dup
          ∧ length magicStringPadding ≤ len d
          ∧ (5 ≤ length magicString → 5 ≤ length magicStringPadding).
Proof.
  destruct (Patch_total_in_bounds (Slice 1 0 200) (Slice 2 0 5) sample_heap)
    as [Hrun Hidx]; [slice_ok_here|slice_ok_here|].
  destruct (Hidx 50%Z) as (_ & Hle & Hdup).
  { vm_compute. reflexivity. }
  { discriminate. }
  split; [exact Hrun|]. split; [vm_compute; reflexivity|].
  split; [exact Hle|exact Hdup].
Defined.

(** Outside the patching path the result is the content slice itself, so
    there a write through the result is a write to the content. *)
Example Patch_noop_result_aliases_content :
  ∃ h', (r ← Patch (Slice 2 0 5) (Slice 3 0 65); set_index r.1 0 "H"%byte)
          sample_heap = Some ((), h')
    ∧ bytes (Slice 2 0 5) sample_heap = hello
    ∧ bytes (Slice 2 0 5) h' = String.list_byte_of_string "Hello".
Proof.
  eexists. split; [|split].
  - erewrite bind_run; cycle 1.
    { apply Patch_absent; [slice_ok_here|simpl; lia|].
      apply Index_none. vm_compute. reflexivity. }
    apply set_index_ok; [reflexivity|vm_compute; lia|simpl; lia].
  - reflexivity.
  - reflexivity.
Qed.

(** * Further properties of [Patch] *)

(** [Patch] as a function on bytes: what a caller can observe of a call,
    the bytes of the result and the error, computed from the bytes of the
    two arguments alone. *)
Definition patch_bytes (c p : list byte) : list byte * option error :=
  if decide (length p = 0) then (c, None)
  else
    let i := Index c magicString in
    if decide (i = (-1)%Z) then (c, None)
    else if decide (length magicString < length p)
    then ([], Some ErrPatchTooLong)
    else (patched c p (Z.to_nat i), None).

(** The shape of what [Patch] returns, on each of its paths. *)
Lemma Patch_result_shape content patch h :
  slice_ok h content → slice_ok h patch →
  ∃ r e h', Patch content patch h = Some ((r, e), h')
    ∧ slice_ok h' r
    ∧ match e with
      | None => len r = len content
                ∧ length (bytes r h') = length (bytes content h)
      | Some _ => r = nil_slice ∧ bytes r h' = []
      end.
Proof.
  intros Hc Hp.
  destruct (Patch_cases content patch h Hc Hp)
    as [[H0 E]|[(H0 & Hno & E)|[(Hyes & Hlong & E)|(i & Hi & Hlen & E)]]];
    eexists _, _, _; (split; [exact E|]); try done.
  pose proof (occurs_at_bound _ _ _ (proj1 Hi)) as Hb.
  pose proof (length_bytes _ _ Hc) as Hlc.
  pose proof (length_bytes _ _ Hp) as Hlp.
  assert (length (patched (bytes content h) (bytes patch h) i) = len content)
    as Hlen' by (rewrite length_patched; lia).
  split; [|split; [done|]].
  - eexists. split; [apply lookup_insert_eq|]. lia.
  - simpl. rewrite lookup_insert_eq. simpl.
    rewrite length_take, length_drop, Hlen'. lia.
Qed.

(** X1: the result of [Patch] is a slice of the new store, as long as the
    content when the error is nil and the nil slice otherwise: a patch
    never changes the size of an asset. *)
Theorem Patch_result_length content patch h :
  slice_ok h content → slice_ok h patch →
  ∃ r e h', Patch content patch h = Some ((r, e), h')
    ∧ slice_ok h' r
    ∧ match e with
      | None => len r = len content
                ∧ length (bytes r h') = length (bytes content h)
      | Some _ => r = nil_slice ∧ bytes r h' = []
      end.
Proof. apply Patch_result_shape. Qed.

Lemma Patch_result_length_witness :
  ∃ r e h', Patch (Slice 1 0 200) (Slice 2 0 5) sample_heap = Some ((r, e), h')
    ∧ slice_ok h' r
    ∧ match e with
      | None => len r = len (Slice 1 0 200)
                ∧ length (bytes r h') = length (bytes (Slice 1 0 200) sample_heap)
      | Some _ => r = nil_slice ∧ bytes r h' = []
      end.
Proof.
  apply Patch_result_length.
  - slice_ok_here.
  - slice_ok_here.
Defined.

(** [Patch] computes [patch_bytes]. *)
Lemma Patch_outputs content patch h :
  slice_ok h content → slice_ok h patch →
  ∃ r e h', Patch content patch h = Some ((r, e), h')
    ∧ (bytes r h', e) = patch_bytes (bytes content h) (bytes patch h).
Proof.
  intros Hc Hp. pose proof (length_bytes _ _ Hp) as Hlp.
  unfold patch_bytes. rewrite Hlp.
  destruct (Patch_cases content patch h Hc Hp)
    as [[H0 E]|[(H0 & Hno & E)|[(Hyes & Hlong & E)|(i & Hi & Hlen & E)]]].
  - eexists _, _, _. split; [exact E|]. by rewrite decide_True.
  - eexists _, _, _. split; [exact E|]. rewrite decide_False by done.
    by rewrite Index_absent, decide_True.
  - eexists _, _, _. split; [exact E|]. rewrite decide_False by lia.
    apply Index_contains in Hyes.
    by rewrite decide_False, decide_True.
  - destruct (Patch_success_view content patch h i Hc Hp Hi Hlen)
      as (l & _ & E' & Hview).
    eexists _, _, _. split; [exact E'|]. rewrite Hview.
    rewrite decide_False by lia. rewrite (Index_first _ _ _ Hi).
    rewrite decide_False by lia. rewrite decide_False by lia.
    by rewrite Nat2Z.id.
Qed.

(** X2: what [Patch] returns depends on the bytes of its arguments only, not
    on where they live or whether they share an array: the bytes of the
    result and the error are [patch_bytes] of the bytes of the content and
    of the payload. *)
Theorem Patch_refines_patch_bytes content patch h :
  slice_ok h content → slice_ok h patch →
  ∃ r e h', Patch content patch h = Some ((r, e), h')
    ∧ (bytes r h', e) = patch_bytes (bytes content h) (bytes patch h).
Proof. apply Patch_outputs. Qed.

(** The payload of the witness is a window of the content itself, inside
    the marker. *)
Lemma Patch_refines_patch_bytes_witness :
  ∃ r e h', Patch (Slice 1 0 200) (Slice 1 50 5) sample_heap = Some ((r, e), h')
    ∧ (bytes r h', e)
      = patch_bytes (bytes (Slice 1 0 200) sample_heap)
          (bytes (Slice 1 50 5) sample_heap).
Proof.
  apply Patch_refines_patch_bytes.
  - slice_ok_here.
  - slice_ok_here.
Defined.

(** X3: a content shorter than the marker comes back as it is, with a nil
    error, whatever the payload: empty, fitting or too long. *)
Theorem Patch_short_content_noop content patch h :
  slice_ok h content → len content < length magicString →
  Patch content patch h = Some ((content, None), h).
Proof.
  intros Hc Hshort. destruct (decide (len patch = 0)) as [H0|H0].
  { by apply Patch_empty. }
  apply Patch_absent; [done|done|]. intros [i Hi].
  apply occurs_at_bound in Hi. rewrite length_bytes in Hi by done. lia.
Qed.

Lemma Patch_short_content_noop_witness :
  Patch (Slice 3 0 65) (Slice 4 0 132) sample_heap
  = Some ((Slice 3 0 65, None), sample_heap).
Proof.
  apply Patch_short_content_noop.
  - slice_ok_here.
  - vm_compute. lia.
Defined.

Lemma magicString_no_space : " "%byte ∉ magicString.
Proof.
  intros Hin. apply (bool_decide_pack (" "%byte ∈ magicString)) in Hin.
  vm_compute in Hin. exact Hin.
Qed.

(** X4: when [Patch] rewrites the marker, the result reads the same bytes as
    the content exactly when the payload is the marker itself; any other
    payload changes the bytes. *)
Theorem Patch_same_bytes_iff_marker content patch h i :
  slice_ok h content → slice_ok h patch →
  first_occurrence magicString (bytes content h) i →
  0 < len patch ≤ length magicString →
  ∃ r h', Patch content patch h = Some ((r, None), h')
    ∧ (bytes r h' = bytes content h ↔ bytes patch h = magicString).
Proof.
  intros Hc Hp Hi Hlen.
  destruct (Patch_success_view content patch h i Hc Hp Hi Hlen)
    as (l & _ & Hrun & Hview).
  pose proof (occurs_at_bound _ _ _ (proj1 Hi)) as Hb.
  pose proof (length_bytes _ _ Hp) as Hlp.
  eexists _, _. split; [exact Hrun|]. rewrite Hview.
  set (c := bytes content h) in *. set (p := bytes patch h) in *.
  assert (sub c i (i + length magicString) = magicString) as Hwin.
  { unfold sub. replace (i + length magicString - i) with (length magicString) by lia.
    apply occurs_at_window, Hi. }
  split.
  - intros Heq.
    assert (p ++ replicate (length magicString - length p) " "%byte = magicString)
      as Hw.
    { rewrite <- (patched_window c p i) by lia. by rewrite Heq. }
    destruct (decide (length p = length magicString)) as [Hfull|Hless].
    + rewrite Hfull, Nat.sub_diag in Hw.
      change (replicate 0 " "%byte) with (@nil byte) in Hw.
      by rewrite app_nil_r in Hw.
    + destruct magicString_no_space. rewrite <- Hw.
      apply elem_of_app. right.
      destruct (length magicString - length p) as [|n] eqn:Hn; [lia|].
      simpl. apply list_elem_of_here.
  - intros Hpm. unfold patched. rewrite Hpm, Nat.sub_diag.
    change (replicate 0 " "%byte) with (@nil byte). rewrite app_nil_l.
    destruct (proj1 (occurs_at_window _ _ _) (proj1 Hi)) as [_ Hw].
    etrans; [|apply (take_drop i c)]. f_equal.
    etrans; [|apply (take_drop (length magicString) (drop i c))].
    by rewrite Hw, drop_drop.
Qed.

Lemma Patch_same_bytes_iff_marker_witness :
  ∃ r h', Patch (Slice 1 0 200) (Slice 1 50 131) sample_heap = Some ((r, None), h')
    ∧ (bytes r h' = bytes (Slice 1 0 200) sample_heap
       ↔ bytes (Slice 1 50 131) sample_heap = magicString).
Proof.
  apply (Patch_same_bytes_iff_marker _ _ _ 50).
  - slice_ok_here.
  - slice_ok_here.
  - apply Index_found. vm_compute. reflexivity.
  - vm_compute. lia.
Defined.

(** ** Requests *)

(** The asset registered under a name is a slice of the initial store. *)
Lemma Files_slice_ok E name s :
  Files E !! name = Some s → slice_ok (init_heap E) s.
Proof.
  intros Hs. unfold Files in Hs. apply elem_of_list_to_map_2 in Hs.
  rewrite !elem_of_cons, elem_of_nil in Hs.
  destruct Hs as [Hs|[Hs|[Hs|[Hs|[Hs|[Hs|[Hs|[]]]]]]]]; simplify_eq;
    (eexists; split; [reflexivity|simpl; lia]).
Qed.

(** X5: two requests on one content: the second call returns what it would
    have returned had the first never happened, and the result of the
    first still reads the same bytes after the second. *)
Theorem Patch_requests_independent content patch1 patch2 h :
  slice_ok h content → slice_ok h patch1 → slice_ok h patch2 →
  ∃ r1 e1 h1 r2 e2 h2,
    Patch content patch1 h = Some ((r1, e1), h1)
    ∧ Patch content patch2 h1 = Some ((r2, e2), h2)
    ∧ (bytes r1 h1, e1) = patch_bytes (bytes content h) (bytes patch1 h)
    ∧ (bytes r2 h2, e2) = patch_bytes (bytes content h) (bytes patch2 h)
    ∧ bytes r1 h2 = bytes r1 h1
    ∧ bytes content h2 = bytes content h.
Proof.
  intros Hc Hp1 Hp2.
  destruct (Patch_outputs content patch1 h Hc Hp1)
    as (r1 & e1 & h1 & Hrun1 & Hout1).
  pose proof (Patch_extends _ _ _ _ _ Hc Hp1 Hrun1) as Hsub1.
  pose proof (slice_ok_weaken _ _ _ Hsub1 Hc) as Hc1.
  pose proof (slice_ok_weaken _ _ _ Hsub1 Hp2) as Hp21.
  destruct (Patch_outputs content patch2 h1 Hc1 Hp21)
    as (r2 & e2 & h2 & Hrun2 & Hout2).
  pose proof (Patch_extends _ _ _ _ _ Hc1 Hp21 Hrun2) as Hsub2.
  rewrite (bytes_weaken h h1 content), (bytes_weaken h h1 patch2) in Hout2
    by done.
  assert (slice_ok h1 r1) as Hr1.
  { destruct (Patch_result_shape content patch1 h Hc Hp1)
      as (r & e & h' & Hrun & Hok & _).
    rewrite Hrun1 in Hrun. by simplify_eq. }
  exists r1, e1, h1, r2, e2, h2.
  split; [done|]. split; [done|]. split; [done|]. split; [done|].
  split; [by apply bytes_weaken|].
  rewrite (bytes_weaken h1 h2) by done. by apply bytes_weaken.
Qed.

Lemma Patch_requests_independent_witness :
  ∃ r1 e1 h1 r2 e2 h2,
    Patch (Slice 1 0 200) (Slice 2 0 5) sample_heap = Some ((r1, e1), h1)
    ∧ Patch (Slice 1 0 200) (Slice 3 0 65) h1 = Some ((r2, e2), h2)
    ∧ (bytes r1 h1, e1)
      = patch_bytes (bytes (Slice 1 0 200) sample_heap)
          (bytes (Slice 2 0 5) sample_heap)
    ∧ (bytes r2 h2, e2)
      = patch_bytes (bytes (Slice 1 0 200) sample_heap)
          (bytes (Slice 3 0 65) sample_heap)
    ∧ bytes r1 h2 = bytes r1 h1
    ∧ bytes (Slice 1 0 200) h2 = bytes (Slice 1 0 200) sample_heap.
Proof.
  apply Patch_requests_independent.
  - slice_ok_here.
  - slice_ok_here.
  - slice_ok_here.
Defined.

(** X6: serving an asset: in every store the package can reach, patching the
    slice registered under a name gives [patch_bytes] of the embedded file
    and the payload, whatever was served before; and the store after the
    call is again one the package can reach. *)
Theorem Patch_registered_asset E h name s patch :
  reachable E h → Files E !! name = Some s → slice_ok h patch →
  ∃ r e h', Patch s patch h = Some ((r, e), h')
    ∧ (bytes r h', e) = patch_bytes (bytes s (init_heap E)) (bytes patch h)
    ∧ Files_content E h' name = Some (bytes s (init_heap E))
    ∧ reachable E h'.
Proof.
  intros Hr Hs Hp.
  pose proof (Files_slice_ok E name s Hs) as Hs0.
  pose proof (reachable_extends E h Hr) as Hsub.
  pose proof (slice_ok_weaken _ _ _ Hsub Hs0) as Hsh.
  destruct (Patch_outputs s patch h Hsh Hp)
    as (r & e & h' & Hrun & Hout).
  rewrite (bytes_weaken (init_heap E) h s) in Hout by done.
  pose proof (reach_Patch E h s patch (r, e) h' Hr Hsh Hp Hrun) as Hr'.
  exists r, e, h'. split; [done|]. split; [done|]. split; [|done].
  unfold Files_content. rewrite Hs. simpl. f_equal.
  apply bytes_weaken; [|done]. by apply reachable_extends.
Qed.

Lemma Patch_registered_asset_witness :
  ∃ r e h', Patch (IpxeEFI sample_embedded) (Slice 2 0 5) sample_state
            = Some ((r, e), h')
    ∧ (bytes r h', e)
      = patch_bytes (bytes (IpxeEFI sample_embedded) (init_heap sample_embedded))
          (bytes (Slice 2 0 5) sample_state)
    ∧ Files_content sample_embedded h' "ipxe.efi"
      = Some (bytes (IpxeEFI sample_embedded) (init_heap sample_embedded))
    ∧ reachable sample_embedded h'.
Proof.
  apply (Patch_registered_asset sample_embedded sample_state "ipxe.efi").
  - apply sample_state_reachable.
  - reflexivity.
  - slice_ok_here.
Defined.

(** * The iPXE script *)

(** The script that is compiled into the iPXE images, line by line; in the
    file every line ends in a line feed.  Lines 10 and 11 are the marker. *)
Definition script_lines : list string :=
  ["#!ipxe";
   EmptyString;
   "set user-class Tinkerbell";
   "echo Welcome to rpardini fork of Neverland!";
   EmptyString;
   "# Allow the operator to drop to a shell";
   "prompt --key 0x02 --timeout 2000 Press Ctrl-B for the iPXE command line... && shell ||";
   EmptyString;
   "# Random string to enable binary patching";
   "#a8b7e61f1075c37a793f2f92cee89f7bba00c4a8d7842ce3d40b5889032d8881";
   "#ddd16a4fc4926ecefdfb6941e33c44ed3647133638f5e84021ea44d3152e7f97";
   EmptyString;
   "# This is possible because the DHCP options from the original vendor PXE DHCP request";
   "# are available to chainloaded iPXE binaries. See https://github.com/ipxe/ipxe/issues/188";
   "set vlan-id ${43.116:string}";
   "isset ${vlan-id} && goto boot-with-vlan ||";
   EmptyString;
   ":iterate-interfaces";
   "set idx:int32 0";
   ":interfaces-loop";
   "isset ${net${idx}/ip} && goto interfaces-loop-done || iseq ${idx} 50 && goto autoboot || inc idx && goto interfaces-loop";
   EmptyString;
   ":interfaces-loop-done";
   "echo Booting from net${idx}...";
   "autoboot net${idx}";
   EmptyString;
   ":autoboot";
   "autoboot";
   EmptyString;
   ":boot-with-vlan";
   "set idx:int32 0";
   "# Find the interface that is configured with an IP, this will be the iPXE auto created vlan interface.";
   ":loop isset ${net${idx}-${vlan-id}/ip} && goto loop_done ||";
   "  iseq ${idx} 50 && goto error ||";
   "  inc idx && goto loop";
   EmptyString;
   ":loop_done";
   "echo Booting from net${idx}-${vlan-id}...";
   "autoboot net${idx}-${vlan-id}";
   EmptyString;
   ":error";
   "echo Failed to find the vlan interface";
   "shell"].

(** The bytes of a run of lines, each closed by a line feed. *)
Definition lines_bytes (ls : list string) : list byte :=
  concat (map (λ l, String.list_byte_of_string l ++ ["010"%byte]) ls).

Definition script : list byte := lines_bytes script_lines.

(** Lines 1 to 9, and what follows line 11: its line feed and lines 12 to
    43. *)
Definition script_head : list byte := lines_bytes (take 9 script_lines).

Definition script_tail : list byte :=
  "010"%byte :: lines_bytes (drop 11 script_lines).

(** The part of [m] from offset [d] on is the start of [t]: [m] can lie
    across the seam of [a ++ t] with its first [d] bytes in [a]. *)
Definition meets (m t : list byte) (d : nat) : bool :=
  bool_decide (drop d m = take (length m - d) t).

Definition meets_nowhere (m t : list byte) : bool :=
  forallb (λ d, negb (meets m t d)) (seq 1 (length m - 1)).

(** An image that holds the script between 7 and 5 other bytes. *)
Definition sample_image : list byte :=
  replicate 7 "<"%byte ++ script ++ replicate 5 ">"%byte.

Definition image_heap : heap :=
  list_to_map [(1%positive, sample_image); (2%positive, hello)].

(** ** Occurrences in a concatenation *)

Lemma occurs_at_app sep a b j :
  occurs_at sep (a ++ b) j →
  (j + length sep ≤ length a ∧ occurs_at sep a j)
  ∨ (length a ≤ j ∧ occurs_at sep b (j - length a))
  ∨ (j < length a < j + length sep
     ∧ drop (length a - j) sep = take (length sep - (length a - j)) b).
Proof.
  intros [Hb Hw]%occurs_at_window. rewrite length_app in Hb.
  destruct (decide (j + length sep ≤ length a)) as [Hin|Hout].
  { left. split; [done|]. apply occurs_at_window. split; [done|].
    rewrite drop_app_le, take_app_le in Hw; [done| |lia].
    rewrite length_drop. lia. }
  right. destruct (decide (length a ≤ j)) as [Hge|Hlt].
  { left. split; [done|]. apply occurs_at_window. split; [lia|].
    by rewrite drop_app_ge in Hw. }
  right. split; [lia|].
  rewrite drop_app_le, take_app in Hw by lia.
  rewrite length_drop in Hw.
  rewrite <- Hw at 1.
  rewrite drop_app_length'; [done|].
  rewrite length_take, length_drop. lia.
Qed.

Lemma occurs_at_middle sep a b : occurs_at sep (a ++ sep ++ b) (length a).
Proof. by exists a, b. Qed.

(** ** The marker in the script *)

Lemma script_split : script = script_head ++ magicString ++ script_tail.
Proof. vm_compute. reflexivity. Qed.

Lemma length_script_head : length script_head = 249.
Proof. vm_compute. reflexivity. Qed.

Lemma script_head_clean : ¬ contains magicString script_head.
Proof. apply Index_none. vm_compute. reflexivity. Qed.

Lemma script_tail_clean : ¬ contains magicString script_tail.
Proof. apply Index_none. vm_compute. reflexivity. Qed.

Lemma magicString_meets_no_head : meets_nowhere magicString script_head = true.
Proof. vm_compute. reflexivity. Qed.

Lemma meets_nowhere_spec m t d :
  meets_nowhere m t = true → 0 < d < length m →
  drop d m ≠ take (length m - d) t.
Proof.
  intros Hall Hd Heq. unfold meets_nowhere in Hall.
  rewrite forallb_forall in Hall.
  assert (In d (seq 1 (length m - 1))) as Hin by (apply in_seq; lia).
  specialize (Hall d Hin). unfold meets in Hall.
  by rewrite bool_decide_eq_true_2 in Hall.
Qed.

(** In an image that holds the script behind bytes free of the marker,
    the marker of the script is the leftmost one. *)
Lemma script_marker_first pre post :
  ¬ contains magicString pre →
  first_occurrence magicString (pre ++ script ++ post)
    (length pre + length script_head).
Proof.
  intros Hpre. rewrite script_split.
  assert (pre ++ (script_head ++ magicString ++ script_tail) ++ post
          = (pre ++ script_head) ++ magicString ++ (script_tail ++ post)) as ->
    by (by rewrite <- !app_assoc).
  assert (occurs_at magicString
            ((pre ++ script_head) ++ magicString ++ script_tail ++ post)
            (length pre + length script_head)) as Hocc.
  { rewrite <- length_app. apply occurs_at_middle. }
  split; [exact Hocc|]. intros j Hj Hoj.
  pose proof (magicString_apart _ _ _ Hoj Hocc Hj) as Hapart.
  apply occurs_at_app in Hoj as [[_ Hin]|[[Hge _]|[Hseam _]]];
    rewrite ?length_app in *; [|lia|lia].
  apply occurs_at_app in Hin as [[_ Hin]|[[Hge Hin]|[Hseam Heq]]].
  - apply Hpre. by exists j.
  - apply script_head_clean. by eexists.
  - revert Heq. apply meets_nowhere_spec; [|lia].
    apply magicString_meets_no_head.
Qed.

(** X7: the marker of the package is lines 10 and 11 of the script with the
    line feed between them; the script is its lines 1 to 9, the marker,
    and the rest; and the marker stands in the script at offset 249 and
    nowhere else. *)
Theorem script_holds_marker_once :
  (∃ l10 l11, script_lines !! 9 = Some l10 ∧ script_lines !! 10 = Some l11
     ∧ magicString
       = String.list_byte_of_string l10
         ++ "010"%byte :: String.list_byte_of_string l11)
  ∧ script = script_head ++ magicString ++ script_tail
  ∧ Index script magicString = 249%Z
  ∧ ∀ j, occurs_at magicString script j ↔ j = 249.
Proof.
  assert (first_occurrence magicString script 249) as Hfirst.
  { pose proof (script_marker_first [] []) as H.
    rewrite app_nil_l, app_nil_r, length_script_head in H.
    apply H. intros [j Hj]. apply occurs_at_bound in Hj.
    rewrite magicString_length in Hj. simpl in Hj. lia. }
  split; [|split; [|split]].
  - eexists _, _. split; [reflexivity|]. split; reflexivity.
  - apply script_split.
  - by apply Index_first in Hfirst.
  - intros j. split; [|intros ->; apply Hfirst].
    intros Hj. destruct (Nat.lt_trichotomy j 249) as [Hlt|[Heq|Hgt]]; [|done|].
    { by destruct (proj2 Hfirst j). }
    pose proof (magicString_apart _ _ _ (proj1 Hfirst) Hj Hgt) as Hapart.
    rewrite magicString_length in Hapart.
    rewrite script_split, app_assoc in Hj.
    apply occurs_at_app in Hj as [[Hin _]|[[_ Hin]|[Hseam _]]];
      rewrite ?length_app, ?length_script_head, ?magicString_length in *;
      [lia| |lia].
    destruct script_tail_clean. by eexists.
Qed.

(** X8: for an image that holds the script behind bytes free of the
    marker, and a non-empty payload that fits, [Patch] returns the image with
    lines 10 and 11 of the script replaced by the payload and spaces: what
    stands before the script, lines 1 to 9, the line feed of line 11,
    lines 12 to 43 and what stands behind the script are as they were. *)
Theorem Patch_image_with_script content patch h pre post :
  slice_ok h content → slice_ok h patch →
  bytes content h = pre ++ script ++ post →
  ¬ contains magicString pre →
  0 < len patch ≤ length magicString →
  ∃ r h', Patch content patch h = Some ((r, None), h')
    ∧ bytes r h'
      = pre ++ script_head ++ bytes patch h
        ++ replicate (length magicString - len patch) " "%byte
        ++ script_tail ++ post.
Proof.
  intros Hc Hp Himg Hpre Hlen.
  pose proof (script_marker_first pre post Hpre) as Hfirst.
  rewrite <- Himg in Hfirst.
  destruct (Patch_success_view content patch h _ Hc Hp Hfirst Hlen)
    as (l & _ & Hrun & Hview).
  eexists _, _. split; [exact Hrun|]. rewrite Hview.
  pose proof (length_bytes _ _ Hp) as Hlp.
  unfold patched. rewrite Hlp, Himg, script_split.
  assert (pre ++ (script_head ++ magicString ++ script_tail) ++ post
          = (pre ++ script_head) ++ magicString ++ (script_tail ++ post)) as ->
    by (by rewrite <- !app_assoc).
  rewrite <- length_app, take_app_length.
  rewrite <- drop_drop, drop_app_length, drop_app_length.
  by rewrite <- !app_assoc.
Qed.

Lemma Patch_image_with_script_witness :
  ∃ r h', Patch (Slice 1 0 1300) (Slice 2 0 5) image_heap = Some ((r, None), h')
    ∧ bytes r h'
      = replicate 7 "<"%byte ++ script_head ++ bytes (Slice 2 0 5) image_heap
        ++ replicate (length magicString - len (Slice 2 0 5)) " "%byte
        ++ script_tail ++ replicate 5 ">"%byte.
Proof.
  apply Patch_image_with_script.
  - slice_ok_here.
  - slice_ok_here.
  - vm_compute. reflexivity.
  - apply Index_none. vm_compute. reflexivity.
  - vm_compute. lia.
Defined.

(** * The command: [main] of [cmd/main.go] *)

(** [main] sets up a signal context and telemetry, runs
    [ipxedust.Execute] and leaves through a deferred [os.Exit].  The
    functions it calls are not among the sources: what they do to the
    outside is recorded as a list of events, a context is the tree of
    calls that derived it, an error is what [main] reads of it, and the
    behaviour of [Execute] is a parameter. *)

Inductive signal : Type := Interrupt | SIGHUP | SIGTERM.

Inductive context : Type :=
  | Background
  | NotifyContext (parent : context) (signals : list signal)
  | InitOpenTelemetry (parent : context) (service : string).

(** An error value as [main] uses it: the text [fmt.Fprintln] prints and
    the answer of [errors.Is(err, context.Canceled)]. *)
Record goerror : Type := GoError {
  error_text : string;
  is_Canceled : bool
}.

(** A call either returns or panics. *)
Inductive outcome (A : Type) : Type :=
  | Returns (a : A)
  | Panics.

Arguments Returns {A} a.
Arguments Panics {A}.

Inductive event : Type :=
  | call_NotifyContext (parent : context) (signals : list signal)
  | call_InitOpenTelemetry (parent : context) (service : string)
  | call_Execute (ctx : context) (args : list string)
  | write_Stderr (line : string)
  | call_otelShutdown (ctx : context)
  | call_done
  | call_Exit (code : Z).

(** The three [defer] statements.  The arguments of a deferred call are
    evaluated by the [defer] statement; the closure reads [exitCode] when
    it runs. *)
Inductive deferred : Type :=
  | defer_Exit_exitCode
  | defer_done
  | defer_otelShutdown (ctx : context).

(** The frame of [main]: its variable [exitCode], the deferred calls, the
    latest first, and the events so far. *)
Record frame : Type := Frame {
  exitCode : Z;
  deferred_calls : list deferred;
  events : list event
}.

Definition G (A : Type) : Type := frame → outcome A * frame.

Definition greturn {A} (a : A) : G A := λ f, (Returns a, f).

Definition gbind {A B} (m : G A) (k : A → G B) : G B :=
  λ f, match m f with
       | (Returns a, f') => k a f'
       | (Panics, f') => (Panics, f')
       end.

#[global] Instance G_ret : MRet G := @greturn.
#[global] Instance G_bind : MBind G := λ A B k m, gbind m k.

Definition emit (e : event) : G unit :=
  λ f, (Returns (), Frame (exitCode f) (deferred_calls f) (events f ++ [e])).

Definition defer (d : deferred) : G unit :=
  λ f, (Returns (), Frame (exitCode f) (d :: deferred_calls f) (events f)).

Definition set_exitCode (c : Z) : G unit :=
  λ f, (Returns (), Frame c (deferred_calls f) (events f)).

(** [os.Args[1:]]: panics on an empty [os.Args]. *)
Definition Args_from_1 (os_Args : list string) : G (list string) :=
  λ f, match os_Args with
       | [] => (Panics, f)
       | _ :: args => (Returns args, f)
       end.

Definition service_name : string := "github.com/rpardini/tinkerbell-ipxedust".

Section Main.
Variable os_Args : list string.
Variable Execute : context → list string → outcome (option goerror).

Definition run_Execute (ctx : context) (args : list string)
  : G (option goerror) :=
  λ f, (Execute ctx args,
        Frame (exitCode f) (deferred_calls f)
          (events f ++ [call_Execute ctx args])).

(** The body of [main], statement by statement. *)
Definition main_body : G unit :=
  _ ← set_exitCode 0;
  _ ← defer defer_Exit_exitCode;
  _ ← emit (call_NotifyContext Background [Interrupt; SIGHUP; SIGTERM]);
  let ctx := NotifyContext Background [Interrupt; SIGHUP; SIGTERM] in
  _ ← defer defer_done;
  _ ← emit (call_InitOpenTelemetry ctx service_name);
  let ctx := InitOpenTelemetry ctx service_name in
  _ ← defer (defer_otelShutdown ctx);
  args ← Args_from_1 os_Args;
  err ← run_Execute ctx args;
  match err with
  | Some e =>
      if negb (is_Canceled e)
      then _ ← emit (write_Stderr (error_text e)); set_exitCode 1
      else mret ()
  | None => mret ()
  end.

(** The deferred calls run latest first, whether the body returned or
    panicked; [os.Exit] ends the process, so nothing runs after it. *)
Fixpoint run_deferred (ds : list deferred) (code : Z) (out : list event)
  : list event :=
  match ds with
  | [] => out
  | defer_Exit_exitCode :: _ => out ++ [call_Exit code]
  | defer_done :: ds' => run_deferred ds' code (out ++ [call_done])
  | defer_otelShutdown ctx :: ds' =>
      run_deferred ds' code (out ++ [call_otelShutdown ctx])
  end.

(** What a run of the command does, in order. *)
Definition main : list event :=
  let f := (main_body (Frame 0 [] [])).2 in
  run_deferred (deferred_calls f) (exitCode f) (events f).

End Main.

(** The context [Execute] is given and telemetry is shut down with. *)
Definition main_ctx : context :=
  InitOpenTelemetry
    (NotifyContext Background [Interrupt; SIGHUP; SIGTERM]) service_name.

(** The events before [Execute] is called. *)
Definition main_setup : list event :=
  [call_NotifyContext Background [Interrupt; SIGHUP; SIGTERM];
   call_InitOpenTelemetry
     (NotifyContext Background [Interrupt; SIGHUP; SIGTERM]) service_name].

(** The error of a run, if it counts as a failure. *)
Definition failure (err : option goerror) : option goerror :=
  match err with
  | Some e => if is_Canceled e then None else Some e
  | None => None
  end.

(** A sample [Execute]: it fails on the argument [bad], is cancelled on
    [stop], panics on [boom] and succeeds otherwise. *)
Definition sample_Execute (ctx : context) (args : list string)
  : outcome (option goerror) :=
  match args with
  | "bad" :: _ => Returns (Some (GoError "listen: address in use" false))
  | "stop" :: _ => Returns (Some (GoError "context canceled" true))
  | "boom" :: _ => Panics
  | _ => Returns None
  end.

(** Closes a goal [e ∈ l → _] for an event that is not in the listed [l]. *)
Ltac absent_event :=
  let H := fresh in
  intros H; unfold main_setup in H;
  rewrite ?elem_of_app, ?elem_of_cons, ?elem_of_nil in H;
  repeat (destruct H as [H|H]); solve [discriminate H | destruct H].

(** X9: when [Execute] returns, the command calls it once, with the telemetry
    context and the arguments after the program name; it writes the error
    to standard error and exits with status 1 exactly when the error is
    neither nil nor [context.Canceled], and otherwise writes nothing and
    exits with status 0; before the exit it shuts telemetry down and then
    releases the signal context. *)
Theorem main_exit_status arg0 args Execute err :
  Execute main_ctx args = Returns err →
  main (arg0 :: args) Execute
  = main_setup ++ [call_Execute main_ctx args]
    ++ match failure err with
       | Some e => [write_Stderr (error_text e)]
       | None => []
       end
    ++ [call_otelShutdown main_ctx; call_done;
        call_Exit (if failure err is Some _ then 1 else 0)].
Proof.
  intros Hrun. unfold main, main_body, run_Execute. simpl.
  unfold mbind, G_bind, gbind, run_Execute. simpl.
  fold main_ctx. rewrite Hrun.
  destruct err as [[text [|]]|]; reflexivity.
Qed.

Lemma main_exit_status_witness :
  main ["ipxedust"; "bad"] sample_Execute
  = main_setup ++ [call_Execute main_ctx ["bad"]]
    ++ [write_Stderr "listen: address in use"]
    ++ [call_otelShutdown main_ctx; call_done; call_Exit 1].
Proof.
  apply (main_exit_status "ipxedust" ["bad"] sample_Execute
           (Some (GoError "listen: address in use" false))).
  reflexivity.
Defined.

(** X10: whatever [os.Args] holds and whatever [Execute] does, a run ends with
    telemetry shut down, the signal context released and [os.Exit], in
    that order, and [os.Exit] is called nowhere else.  When the body
    panics, on an empty [os.Args] or inside [Execute], nothing is written
    to standard error and the status is 0. *)
Theorem main_always_cleans_up_and_exits os_Args Execute :
  ∃ before code,
    main os_Args Execute
    = before ++ [call_otelShutdown main_ctx; call_done; call_Exit code]
    ∧ (∀ c, call_Exit c ∉ before)
    ∧ (code = 0%Z ∨ code = 1%Z)
    ∧ (code = 1%Z ↔ ∃ line, write_Stderr line ∈ before)
    ∧ (os_Args = [] ∨ Execute main_ctx (drop 1 os_Args) = Panics →
       code = 0%Z).
Proof.
  unfold main, main_body. simpl.
  unfold mbind, G_bind, gbind, Args_from_1, run_Execute. simpl. fold main_ctx.
  destruct os_Args as [|arg0 args]; simpl.
  { exists main_setup, 0%Z. split; [reflexivity|].
    split; [intros c; absent_event|].
    split; [by left|]. split; [|done].
    split; [done|]. intros [line Hin]. revert Hin. absent_event. }
  rewrite drop_0.
  destruct (Execute main_ctx args) as [[[text [|]]|]|] eqn:Hrun; simpl.
  - exists (main_setup ++ [call_Execute main_ctx args]), 0%Z.
    split; [reflexivity|]. split; [intros c; absent_event|].
    split; [by left|]. split; [|done].
    split; [done|]. intros [line Hin]. revert Hin. absent_event.
  - exists (main_setup ++ [call_Execute main_ctx args; write_Stderr text]), 1%Z.
    split; [reflexivity|]. split; [intros c; absent_event|].
    split; [by right|]. split.
    + split; [|done]. intros _. exists text.
      apply elem_of_app. right. apply elem_of_cons. right.
      apply list_elem_of_singleton. done.
    + intros [?|?]; done.
  - exists (main_setup ++ [call_Execute main_ctx args]), 0%Z.
    split; [reflexivity|]. split; [intros c; absent_event|].
    split; [by left|]. split; [|done].
    split; [done|]. intros [line Hin]. revert Hin. absent_event.
  - exists (main_setup ++ [call_Execute main_ctx args]), 0%Z.
    split; [reflexivity|]. split; [intros c; absent_event|].
    split; [by left|]. split; [|done].
    split; [done|]. intros [line Hin]. revert Hin. absent_event.
Qed.
